(** * IFEM-GPM: topology primitives, command-line driver and global numbering

    A shallow embedding of the parts of the GPM preprocessor that its
    specification talks about:

    - [LineEnum]: [Line::getLineEnumeration] (src/src/Line.cpp), the
      corner-pair to edge-slot table of a hexahedron;
    - [LineEq]: [Line::equals] (src/src/Line.cpp), tolerance based equality
      of two edge lines;
    - [Driver]: [processParameters] and [main] of main_getPROP.cpp;
    - [RightHand]: [SplineModel::enforceRightHandSystem];
    - [Numbering]: [SplineModel::generateGlobalNumbers].

    Of [SplineModel] only the header SplineModel.h belongs to the
    sources this development follows; the last two modules are therefore
    modelled from the specification and say so at every definition. *)

From Stdlib Require Import ZArith List Bool Lia String Ascii DecimalString FinFun.
From Stdlib Require Import PrimFloat.
Import ListNotations.

#[local] Open Scope Z_scope.

(* ===================================================================== *)
(** ** Line::getLineEnumeration *)
(* ===================================================================== *)

Module LineEnum.

(** C++ [int]: 32-bit two's complement.  Signed overflow is undefined in
    C++; the wrap-around below is what the usual targets do and is never
    reached for corner indices. *)
Definition wrap (z : Z) : Z := (z + 2 ^ 31) mod 2 ^ 32 - 2 ^ 31.

Definition isub (a b : Z) : Z := wrap (a - b).
Definition iadd (a b : Z) : Z := wrap (a + b).
(** C++ integer division truncates towards zero. *)
Definition idiv (a b : Z) : Z := wrap (Z.quot a b).

(** The value returned for "no valid vertex combination". *)
Definition invalid : Z := -1.

(** The body of the function once [vert1 <= vert2] has been arranged. *)
Definition classify (vert1 vert2 : Z) : Z :=
  if isub vert2 vert1 =? 1 then idiv vert1 2                     (* u-line *)
  else if isub vert2 vert1 =? 2 then iadd (idiv (iadd vert2 vert1) 4) 4  (* v-line *)
  else if isub vert2 vert1 =? 4 then iadd vert1 8                (* w-line *)
  else invalid.

(** [int Line::getLineEnumeration(int vert1, int vert2)] *)
Definition getLineEnumeration (vert1 vert2 : Z) : Z :=
  if vert2 <? vert1 then classify vert2 vert1 else classify vert1 vert2.

(** The eight corners of a hexahedron. *)
Definition corner (a : Z) : Prop := 0 <= a <= 7.

(** The three admissible index differences. *)
Definition adjacent (a b : Z) : Prop :=
  Z.abs (a - b) = 1 \/ Z.abs (a - b) = 2 \/ Z.abs (a - b) = 4.

Lemma wrap_small z : - 2 ^ 31 <= z < 2 ^ 31 -> wrap z = z.
Proof.
  intros H. unfold wrap.
  rewrite Z.mod_small by lia. lia.
Qed.

Lemma corner_cases a : corner a ->
  a = 0 \/ a = 1 \/ a = 2 \/ a = 3 \/ a = 4 \/ a = 5 \/ a = 6 \/ a = 7.
Proof. unfold corner. lia. Qed.

Ltac corner_split H :=
  apply corner_cases in H;
  repeat (destruct H as [H|H]); subst.

(** Swapping the arguments never changes the result: the function orders
    them first. *)
Lemma getLineEnumeration_sym a b :
  getLineEnumeration a b = getLineEnumeration b a.
Proof.
  unfold getLineEnumeration.
  destruct (Z.ltb_spec b a), (Z.ltb_spec a b); try reflexivity; try lia.
  assert (a = b) by lia. subst. reflexivity.
Qed.

Example enum_0_1 : getLineEnumeration 0 1 = 0.  Proof. reflexivity. Qed.
Example enum_7_6 : getLineEnumeration 7 6 = 3.  Proof. reflexivity. Qed.
Example enum_1_3 : getLineEnumeration 1 3 = 5.  Proof. reflexivity. Qed.
Example enum_7_3 : getLineEnumeration 7 3 = 11. Proof. reflexivity. Qed.
Example enum_0_7 : getLineEnumeration 0 7 = -1. Proof. reflexivity. Qed.
Example enum_0_3 : getLineEnumeration 0 3 = -1. Proof. reflexivity. Qed.
(** The table does not check that the pair really is an edge of the cube:
    corners 1 and 2 differ by one and land in u-slot 0. *)
Example enum_1_2 : getLineEnumeration 1 2 = 0.  Proof. reflexivity. Qed.
(** Outside the corner range a difference of one can give the sentinel. *)
Example enum_neg : getLineEnumeration (-3) (-2) = -1. Proof. reflexivity. Qed.

(** C2: for corner indices [a], [b] the enumeration is symmetric, and it
    is the sentinel [-1] exactly when [|a - b|] is none of 1, 2, 4. *)
Theorem getLineEnumeration_sym_sentinel a b :
  corner a -> corner b ->
  getLineEnumeration a b = getLineEnumeration b a /\
  (getLineEnumeration a b = invalid <-> ~ adjacent a b).
Proof.
  intros Ha Hb. split; [apply getLineEnumeration_sym|].
  unfold adjacent, invalid.
  corner_split Ha; corner_split Hb; vm_compute; split; intros H;
    try discriminate; try reflexivity;
    try (exfalso; apply H; auto; fail);
    try (intros [K|[K|K]]; discriminate K).
Qed.

Lemma getLineEnumeration_sym_sentinel_witness :
  getLineEnumeration 2 6 = getLineEnumeration 6 2 /\
  (getLineEnumeration 2 6 = invalid <-> ~ adjacent 2 6).
Proof.
  apply (getLineEnumeration_sym_sentinel 2 6); unfold corner; lia.
Defined.

(** C3: with [lo], [hi] the ordered pair of corner indices, difference 1
    gives the u-slot [lo/2] in 0..3, difference 2 the v-slot
    [(lo+hi)/4 + 4] in 4..7, difference 4 the w-slot [lo + 8] in 8..11;
    every result other than the sentinel is one of the slots 0..11. *)
Theorem getLineEnumeration_slots a b :
  corner a -> corner b ->
  let lo := Z.min a b in
  let hi := Z.max a b in
  let r := getLineEnumeration a b in
  (hi - lo = 1 -> r = lo / 2 /\ 0 <= r <= 3) /\
  (hi - lo = 2 -> r = (lo + hi) / 4 + 4 /\ 4 <= r <= 7) /\
  (hi - lo = 4 -> r = lo + 8 /\ 8 <= r <= 11) /\
  (r <> invalid -> 0 <= r <= 11).
Proof.
  intros Ha Hb.
  corner_split Ha; corner_split Hb; vm_compute;
    repeat split; intros; try discriminate; try congruence.
Qed.

Lemma getLineEnumeration_slots_witness :
  let r := getLineEnumeration 5 3 in
  (Z.max 5 3 - Z.min 5 3 = 1 -> r = Z.min 5 3 / 2 /\ 0 <= r <= 3) /\
  (Z.max 5 3 - Z.min 5 3 = 2 ->
     r = (Z.min 5 3 + Z.max 5 3) / 4 + 4 /\ 4 <= r <= 7) /\
  (Z.max 5 3 - Z.min 5 3 = 4 -> r = Z.min 5 3 + 8 /\ 8 <= r <= 11) /\
  (r <> invalid -> 0 <= r <= 11).
Proof.
  apply (getLineEnumeration_slots 5 3); unfold corner; lia.
Defined.

(** *** The table against the edges of the hexahedron *)

(** Corner [c] sits at the parameter ends given by the binary digits of
    [c] (digit 0 for u, 1 for v, 2 for w), which is what makes a
    difference of 1, 2, 4 a "u-line", "v-line", "w-line" in the code.
    Two corners bound an edge when they differ in exactly one digit. *)
Definition is_edge (a b : Z) : bool :=
  (Z.lxor a b =? 1) || (Z.lxor a b =? 2) || (Z.lxor a b =? 4).

Definition corners : list Z := [0; 1; 2; 3; 4; 5; 6; 7].

Lemma corner_In a : corner a -> In a corners.
Proof. intros H. corner_split H; simpl; auto 10. Qed.

(** Two edges with the same slot are the same edge. *)
Definition same_slot_same_edge (a b c d : Z) : bool :=
  implb (is_edge a b && is_edge c d &&
         (getLineEnumeration a b =? getLineEnumeration c d))
        ((a =? c) && (b =? d) || (a =? d) && (b =? c)).

Lemma same_slot_same_edge_all :
  forallb (fun a => forallb (fun b => forallb (fun c => forallb (fun d =>
    same_slot_same_edge a b c d) corners) corners) corners) corners = true.
Proof. vm_compute. reflexivity. Qed.

(** Every slot is the slot of an edge. *)
Definition slot_edge (s : Z) : Z * Z :=
  if s <? 4 then (2 * s, 2 * s + 1)
  else if s <? 8 then
    (if s <? 6 then s - 4 else s - 2, if s <? 6 then s - 2 else s)
  else (s - 8, s - 4).

(** X1: on the twelve edges of the hexahedron the enumeration is one to
    one (up to the order of the two corners) and onto the slots 0..11. *)
Theorem edges_one_to_one_onto :
  (forall a b c d,
     corner a -> corner b -> corner c -> corner d ->
     is_edge a b = true -> is_edge c d = true ->
     getLineEnumeration a b = getLineEnumeration c d ->
     (a = c /\ b = d) \/ (a = d /\ b = c)) /\
  (forall s, 0 <= s <= 11 ->
     exists a b, corner a /\ corner b /\ is_edge a b = true /\
                 getLineEnumeration a b = s).
Proof.
  split.
  - intros a b c d Ha Hb Hc Hd Eab Ecd E.
    pose proof same_slot_same_edge_all as K.
    rewrite forallb_forall in K. specialize (K a (corner_In a Ha)).
    rewrite forallb_forall in K. specialize (K b (corner_In b Hb)).
    rewrite forallb_forall in K. specialize (K c (corner_In c Hc)).
    rewrite forallb_forall in K. specialize (K d (corner_In d Hd)).
    unfold same_slot_same_edge in K.
    rewrite Eab, Ecd, E, Z.eqb_refl in K. simpl in K.
    apply orb_true_iff in K.
    destruct K as [K|K]; apply andb_true_iff in K; destruct K as [K1 K2];
      apply Z.eqb_eq in K1, K2; auto.
  - intros s Hs.
    exists (fst (slot_edge s)), (snd (slot_edge s)).
    assert (C : s = 0 \/ s = 1 \/ s = 2 \/ s = 3 \/ s = 4 \/ s = 5 \/
                s = 6 \/ s = 7 \/ s = 8 \/ s = 9 \/ s = 10 \/ s = 11) by lia.
    repeat (destruct C as [C|C]); subst s; vm_compute;
      repeat split; congruence.
Qed.

Lemma edges_one_to_one_onto_witness :
  ((2 = 6 /\ 6 = 2) \/ (2 = 2 /\ 6 = 6)) /\
  (exists a b, corner a /\ corner b /\ is_edge a b = true /\
               getLineEnumeration a b = 7).
Proof.
  destruct edges_one_to_one_onto as (Inj & Onto). split.
  - apply (Inj 2 6 6 2); unfold corner; try lia; reflexivity.
  - apply (Onto 7). lia.
Defined.

(** X2: the sentinel does not tell every non-edge apart.  For corners
    [a < b], a slot is returned although the two corners bound no edge
    exactly for the five pairs below (they differ by 1 or 2 across a
    carry). *)
Theorem non_edges_with_a_slot a b :
  corner a -> corner b -> a < b ->
  (getLineEnumeration a b <> invalid /\ is_edge a b = false <->
   (a = 1 /\ b = 2) \/ (a = 3 /\ b = 4) \/ (a = 5 /\ b = 6) \/
   (a = 2 /\ b = 4) \/ (a = 3 /\ b = 5)).
Proof.
  intros Ha Hb Hlt.
  corner_split Ha; corner_split Hb; try lia; clear Hlt; vm_compute;
    (split;
     [ intros [H1 H2];
       first [ lia | discriminate H2 | exfalso; apply H1; reflexivity ]
     | intros H; first [ lia | split; [discriminate | reflexivity] ] ]).
Qed.

Lemma non_edges_with_a_slot_witness :
  getLineEnumeration 3 4 <> invalid /\ is_edge 3 4 = false <->
  (3 = 1 /\ 4 = 2) \/ (3 = 3 /\ 4 = 4) \/ (3 = 5 /\ 4 = 6) \/
  (3 = 2 /\ 4 = 4) \/ (3 = 3 /\ 4 = 5).
Proof.
  apply (non_edges_with_a_slot 3 4); unfold corner; lia.
Defined.

(** *** Arguments that are not corner numbers *)

(** For ordered non-negative arguments no operation wraps and the
    truncating division is the usual one. *)
Lemma classify_nonneg lo hi :
  0 <= lo <= hi -> hi < 2 ^ 30 ->
  classify lo hi =
  if hi - lo =? 1 then lo / 2
  else if hi - lo =? 2 then (hi + lo) / 4 + 4
  else if hi - lo =? 4 then lo + 8
  else invalid.
Proof.
  intros H1 H2. unfold classify, isub, iadd, idiv.
  rewrite (wrap_small (hi - lo)) by lia.
  rewrite (wrap_small (hi + lo)) by lia.
  rewrite !Z.quot_div_nonneg by lia.
  assert (0 <= lo / 2 <= lo) by (Z.div_mod_to_equations; lia).
  assert (0 <= (hi + lo) / 4 <= hi + lo) by (Z.div_mod_to_equations; lia).
  rewrite (wrap_small (lo / 2)) by lia.
  rewrite (wrap_small ((hi + lo) / 4)) by lia.
  rewrite (wrap_small ((hi + lo) / 4 + 4))
    by (Z.div_mod_to_equations; lia).
  rewrite (wrap_small (lo + 8)) by lia.
  reflexivity.
Qed.

(** X3: for non-negative arguments below [2^30], corner numbers or not,
    the result is the sentinel exactly when the difference is none of 1,
    2, 4, and a slot number is never negative: the sentinel cannot be
    mistaken for a slot. *)
Theorem sentinel_unambiguous_nonneg a b :
  0 <= a < 2 ^ 30 -> 0 <= b < 2 ^ 30 ->
  (getLineEnumeration a b = invalid <-> ~ adjacent a b) /\
  (adjacent a b -> 0 <= getLineEnumeration a b).
Proof.
  intros Ha Hb. unfold getLineEnumeration, adjacent, invalid.
  destruct (Z.ltb_spec b a).
  - rewrite (classify_nonneg b a) by lia. unfold invalid.
    destruct (Z.eqb_spec (a - b) 1); [|destruct (Z.eqb_spec (a - b) 2);
      [|destruct (Z.eqb_spec (a - b) 4)]];
      (split; [split|]); intros; Z.div_mod_to_equations; lia.
  - rewrite (classify_nonneg a b) by lia. unfold invalid.
    destruct (Z.eqb_spec (b - a) 1); [|destruct (Z.eqb_spec (b - a) 2);
      [|destruct (Z.eqb_spec (b - a) 4)]];
      (split; [split|]); intros; Z.div_mod_to_equations; lia.
Qed.

Lemma sentinel_unambiguous_nonneg_witness :
  (getLineEnumeration 1000 1002 = invalid <-> ~ adjacent 1000 1002) /\
  (adjacent 1000 1002 -> 0 <= getLineEnumeration 1000 1002).
Proof.
  apply (sentinel_unambiguous_nonneg 1000 1002); lia.
Defined.

End LineEnum.

(* ===================================================================== *)
(** ** Line::equals *)
(* ===================================================================== *)

Module LineEq.

(** A line primitive.  [Line::equals] reads nothing but the control
  points [cp] (a [vector<Point>]); the end vertices [v1], [v2] are only
  printed by [Line::write]. *)
Record Line (Point : Type) := mkLine { cp : list Point }.
Arguments mkLine {Point} _.
Arguments cp {Point} _.

(** The two orders in which the stored sequence can be walked. *)
Inductive Direction := Forward | Reversed.

Section Equals.
(** [Go::Point] and its [dist] belong to the GoTools kernel; the value of
    a distance is a [double], of which only [operator<] is used
    ([a > b] is [b < a]). *)
Context {Point D : Type}.
Variable dist : Point -> Point -> D.
Variable ltb : D -> D -> bool.

Definition gtb (a b : D) : bool := ltb b a.

(** Both [for] loops have the same body and the same guard
    [this_cp != end && cp_new != l->cp.end()]: [its] is what the
    iterator over this line still has to visit, [news] what [cp_new]
    still has.  The loop stops when either runs out. *)
Fixpoint compare_loop (its news : list Point) (tol : D) : bool :=
  match its, news with
  | p :: its', q :: news' =>
      if gtb (dist p q) tol then false else compare_loop its' news' tol
  | _, _ => true
  end.

(** [bool Line::equals(Line *l, double tol)].  Dereferencing [begin()],
    [front()] or [back()] of an empty vector is undefined: [None]. *)
Definition equals (this l : Line Point) (tol : D) : option bool :=
  match cp l, cp this with
  | q0 :: _, front :: _ =>
      if ltb (dist q0 front) tol then
        Some (compare_loop (cp this) (cp l) tol)
      else if ltb (dist q0 (last (cp this) front)) tol then
        Some (compare_loop (rev (cp this)) (cp l) tol)
      else Some false
  | _, _ => None
  end.

(** The same two loops, recording every pair of points whose
    distance the loop body computes. *)
Fixpoint loop_trace (its news : list Point) (tol : D) : list (Point * Point) :=
  match its, news with
  | p :: its', q :: news' =>
      (p, q) :: (if gtb (dist p q) tol then [] else loop_trace its' news' tol)
  | _, _ => []
  end.

Definition examined (this l : Line Point) (tol : D) : list (Point * Point) :=
  match cp l, cp this with
  | q0 :: _, front :: _ =>
      if ltb (dist q0 front) tol then loop_trace (cp this) (cp l) tol
      else if ltb (dist q0 (last (cp this) front)) tol then
        loop_trace (rev (cp this)) (cp l) tol
      else []
  | _, _ => []
  end.

(** *** Vocabulary of the statements *)

(** A pair of control points further apart than the tolerance. *)
Definition exceeds (tol : D) (pq : Point * Point) : bool :=
  gtb (dist (fst pq) (snd pq)) tol.

Definition within (tol : D) (pq : Point * Point) : bool :=
  negb (exceeds tol pq).

(** The elements of a list up to and including the first that satisfies
    [f]. *)
Fixpoint through_first {A} (f : A -> bool) (l : list A) : list A :=
  match l with
  | [] => []
  | x :: r => x :: (if f x then [] else through_first f r)
  end.

(** The direction the first control point of [l] selects, if any. *)
Definition orientation (this l : Line Point) (tol : D) : option Direction :=
  match cp l, cp this with
  | q0 :: _, front :: _ =>
      if ltb (dist q0 front) tol then Some Forward
      else if ltb (dist q0 (last (cp this) front)) tol then Some Reversed
      else None
  | _, _ => None
  end.

Definition traverse (d : Direction) (this : Line Point) : list Point :=
  match d with
  | Forward => cp this
  | Reversed => rev (cp this)
  end.

(** The pairing a direction induces: position by position, as far as the
    shorter sequence goes. *)
Definition pairing (d : Direction) (this l : Line Point) : list (Point * Point) :=
  combine (traverse d this) (cp l).

(** *** The loops as list functions *)

Lemma compare_loop_forallb its news tol :
  compare_loop its news tol = forallb (within tol) (combine its news).
Proof.
  revert news. induction its as [|p its IH]; intros [|q news]; simpl; auto.
  unfold within, exceeds at 1. simpl.
  destruct (gtb (dist p q) tol); simpl; auto.
Qed.

Lemma loop_trace_through_first its news tol :
  loop_trace its news tol = through_first (exceeds tol) (combine its news).
Proof.
  revert news. induction its as [|p its IH]; intros [|q news]; simpl; auto.
  unfold exceeds at 1. simpl.
  destruct (gtb (dist p q) tol); simpl; auto. now rewrite IH.
Qed.


Lemma compare_loop_same its tol :
  (forall p, In p its -> gtb (dist p p) tol = false) ->
  compare_loop its its tol = true.
Proof.
  induction its as [|p its IH]; simpl; intros H; auto.
  rewrite (H p) by auto. apply IH. intros q Hq. apply H. auto.
Qed.


(** A line equals itself when a point is at distance below [tol], and
    not above it, from itself. *)
Lemma equals_refl this tol :
  cp this <> [] ->
  (forall p, ltb (dist p p) tol = true) ->
  (forall p, gtb (dist p p) tol = false) ->
  equals this this tol = Some true.
Proof.
  intros Hne Hlt Hgt. unfold equals.
  destruct (cp this) as [|front its] eqn:E; [congruence|].
  rewrite Hlt. f_equal. apply compare_loop_same. auto.
Qed.

(** A line whose two ends are further apart than the tolerance equals
    its reversed copy. *)
Lemma equals_reversed_open this tol front its :
  cp this = front :: its ->
  ltb (dist (last (cp this) front) front) tol = false ->
  (forall p, ltb (dist p p) tol = true) ->
  (forall p, gtb (dist p p) tol = false) ->
  equals this (mkLine (rev (cp this))) tol = Some true.
Proof.
  intros E Hopen Hlt Hgt. unfold equals. simpl.
  destruct (rev (cp this)) as [|q0 news] eqn:Er.
  - apply (f_equal (@rev Point)) in Er. rewrite rev_involutive in Er.
    rewrite E in Er. discriminate.
  - rewrite E. rewrite <- E.
    assert (Hq : q0 = last (cp this) front).
    { rewrite <- (rev_involutive (cp this)), Er. simpl.
      now rewrite last_last. }
    rewrite Hq, Hopen, Hlt. rewrite <- Hq, <- Er.
    f_equal. apply compare_loop_same. auto.
Qed.

(** The result and the pairs examined, by the direction the first
    control point selects. *)
Lemma equals_by_orientation this l tol :
  cp this <> [] -> cp l <> [] ->
  match orientation this l tol with
  | Some d =>
      equals this l tol = Some (forallb (within tol) (pairing d this l)) /\
      examined this l tol = through_first (exceeds tol) (pairing d this l)
  | None =>
      equals this l tol = Some false /\ examined this l tol = []
  end.
Proof.
  intros Ht Hl. unfold orientation, equals, examined, pairing.
  destruct (cp l) as [|q0 news] eqn:El; [congruence|].
  destruct (cp this) as [|front its] eqn:Et; [congruence|].
  destruct (ltb (dist q0 front) tol); simpl traverse.
  - rewrite Et, compare_loop_forallb, loop_trace_through_first. auto.
  - destruct (ltb (dist q0 (last (front :: its) front)) tol); simpl traverse.
    + rewrite Et, compare_loop_forallb, loop_trace_through_first. auto.
    + auto.
Qed.



(** C10: the first control point [q0] of [l] alone picks the direction.
    Within tolerance of this line's front: only the forward pairing is
    examined and decides, also when it fails.  Otherwise, within tolerance
    of the back: the reversed pairing decides.  Otherwise the result is
    [false] and nothing is compared. *)
Theorem equals_commits_to_first_point this l tol q0 news front its :
  cp l = q0 :: news -> cp this = front :: its ->
  (ltb (dist q0 front) tol = true ->
     equals this l tol = Some (compare_loop (cp this) (cp l) tol) /\
     examined this l tol = loop_trace (cp this) (cp l) tol /\
     (compare_loop (cp this) (cp l) tol = false ->
      equals this l tol = Some false)) /\
  (ltb (dist q0 front) tol = false ->
   ltb (dist q0 (last (cp this) front)) tol = true ->
     equals this l tol = Some (compare_loop (rev (cp this)) (cp l) tol) /\
     examined this l tol = loop_trace (rev (cp this)) (cp l) tol) /\
  (ltb (dist q0 front) tol = false ->
   ltb (dist q0 (last (cp this) front)) tol = false ->
     equals this l tol = Some false /\ examined this l tol = []).
Proof.
  intros El Et. unfold equals, examined. rewrite El, Et.
  split; [|split].
  - intros H. rewrite H. repeat split. now intros ->.
  - intros H H0. rewrite H, H0. split; reflexivity.
  - intros H H0. rewrite H, H0. split; reflexivity.
Qed.

(** *** What the loops never look at *)

Lemma compare_loop_app_r its news extra tol :
  (List.length its <= List.length news)%nat ->
  compare_loop its (news ++ extra) tol = compare_loop its news tol.
Proof.
  revert news. induction its as [|p its IH]; intros [|q news] H;
    simpl in *; try lia; auto.
  destruct (gtb (dist p q) tol); auto. apply IH. lia.
Qed.

Lemma loop_trace_app_r its news extra tol :
  (List.length its <= List.length news)%nat ->
  loop_trace its (news ++ extra) tol = loop_trace its news tol.
Proof.
  revert news. induction its as [|p its IH]; intros [|q news] H;
    simpl in *; try lia; auto.
  destruct (gtb (dist p q) tol); auto. f_equal. apply IH. lia.
Qed.

(** X4: control points of [l] beyond the number of control points of
    this line are never looked at: appending any points to a line [l]
    that is at least as long as this one changes neither the result nor
    the pairs examined. *)
Theorem equals_ignores_tail this l extra tol :
  (List.length (cp this) <= List.length (cp l))%nat ->
  equals this (mkLine (cp l ++ extra)) tol = equals this l tol /\
  examined this (mkLine (cp l ++ extra)) tol = examined this l tol.
Proof.
  intros H. unfold equals, examined. simpl.
  destruct (cp this) as [|front its] eqn:Et.
  - destruct (cp l ++ extra)%list, (cp l); auto.
  - destruct (cp l) as [|q0 news] eqn:El; [simpl in H; lia|].
    change ((q0 :: news) ++ extra)%list with (q0 :: (news ++ extra))%list.
    cbv iota.
    change (q0 :: (news ++ extra))%list with ((q0 :: news) ++ extra)%list.
    rewrite !compare_loop_app_r, !loop_trace_app_r
      by (rewrite ?length_rev; exact H).
    auto.
Qed.

(** *** Reflexivity, reversal and symmetry *)

(** X5: a line with at least one control point equals itself, provided
    each of its control points is, for the two comparisons, at a distance
    from itself that is below the tolerance and not above it. *)
Theorem equals_self this tol :
  cp this <> [] ->
  (forall p, In p (cp this) ->
     ltb (dist p p) tol = true /\ gtb (dist p p) tol = false) ->
  equals this this tol = Some true.
Proof.
  intros Hne H. unfold equals.
  destruct (cp this) as [|front its] eqn:E; [congruence|].
  rewrite (proj1 (H front (or_introl eq_refl))). f_equal.
  apply compare_loop_same. intros p Hp. apply (H p Hp).
Qed.

(** X6: a line whose last control point is not within tolerance of its
    first one equals the copy of itself with the control points in
    reverse order, under the same proviso on the distance of a point
    from itself. *)
Theorem equals_reversed_copy this tol front its :
  cp this = front :: its ->
  ltb (dist (last (cp this) front) front) tol = false ->
  (forall p, In p (cp this) ->
     ltb (dist p p) tol = true /\ gtb (dist p p) tol = false) ->
  equals this (mkLine (rev (cp this))) tol = Some true.
Proof.
  intros E Hopen H. unfold equals. simpl.
  destruct (rev (cp this)) as [|q0 news] eqn:Er.
  - apply (f_equal (@rev Point)) in Er. rewrite rev_involutive in Er.
    rewrite E in Er. discriminate.
  - rewrite E. rewrite <- E.
    assert (Hq : q0 = last (cp this) front).
    { rewrite <- (rev_involutive (cp this)), Er. simpl.
      now rewrite last_last. }
    assert (Hin : In q0 (cp this)).
    { apply in_rev. rewrite Er. left. reflexivity. }
    rewrite Hq, Hopen. rewrite <- Hq at 1. rewrite <- Hq.
    rewrite (proj1 (H q0 Hin)). rewrite <- Er.
    f_equal. apply compare_loop_same.
    intros p Hp. apply (H p). now apply in_rev.
Qed.

Lemma combine_app_eq {A B} (x1 x2 : list A) (y1 y2 : list B) :
  List.length x1 = List.length y1 ->
  combine (x1 ++ x2) (y1 ++ y2) = (combine x1 y1 ++ combine x2 y2)%list.
Proof.
  revert y1. induction x1 as [|a x1 IH]; intros [|b y1] H; simpl in *;
    try discriminate; auto.
  f_equal. apply IH. lia.
Qed.

Lemma combine_rev {A B} (x : list A) (y : list B) :
  List.length x = List.length y ->
  combine (rev x) (rev y) = rev (combine x y).
Proof.
  revert y. induction x as [|a x IH]; intros [|b y] H; simpl in *;
    try discriminate; auto.
  rewrite combine_app_eq by (rewrite !length_rev; lia).
  rewrite IH by lia. reflexivity.
Qed.

Lemma forallb_rev {A} (f : A -> bool) (l : list A) :
  forallb f (rev l) = forallb f l.
Proof.
  induction l as [|a l IH]; simpl; auto.
  rewrite forallb_app, IH. simpl. rewrite andb_true_r. apply andb_comm.
Qed.

Lemma compare_loop_sym a b tol :
  (forall p q, In p a -> In q b ->
     gtb (dist q p) tol = gtb (dist p q) tol) ->
  compare_loop b a tol = compare_loop a b tol.
Proof.
  revert b. induction a as [|p a IH]; intros [|q b] H; simpl; auto.
  rewrite (H p q) by (left; reflexivity).
  destruct (gtb (dist p q) tol); auto.
  apply IH. intros p' q' Hp Hq. apply H; right; assumption.
Qed.

Lemma compare_loop_reversed_sym a b tol :
  List.length a = List.length b ->
  (forall p q, In p a -> In q b ->
     gtb (dist q p) tol = gtb (dist p q) tol) ->
  compare_loop (rev b) a tol = compare_loop (rev a) b tol.
Proof.
  intros Hlen H.
  rewrite (compare_loop_sym a (rev b))
    by (intros p q Hp Hq; apply H; [assumption | now apply in_rev]).
  rewrite !compare_loop_forallb.
  rewrite <- (rev_involutive b) at 2.
  rewrite combine_rev by (rewrite length_rev; exact Hlen).
  now rewrite forallb_rev.
Qed.

Lemma compare_loop_head p its q news tol :
  compare_loop (p :: its) (q :: news) tol = true ->
  gtb (dist p q) tol = false.
Proof. simpl. destruct (gtb (dist p q) tol); [discriminate|reflexivity]. Qed.

Lemma rev_head_last {A} (l r : list A) (x d : A) :
  rev l = x :: r -> last l d = x /\ In x l.
Proof.
  intros H. split.
  - rewrite <- (rev_involutive l), H. simpl. now rewrite last_last.
  - apply in_rev. rewrite H. left. reflexivity.
Qed.

(** The two comparisons cannot tell [dist p q] from [dist q p], and no
    control point of one line is at a distance from a control point of
    the other that is neither below nor above the tolerance. *)
Definition regular (this l : Line Point) (tol : D) : Prop :=
  forall p q, In p (cp this) -> In q (cp l) ->
    ltb (dist q p) tol = ltb (dist p q) tol /\
    gtb (dist q p) tol = gtb (dist p q) tol /\
    ltb (dist p q) tol = negb (gtb (dist p q) tol).

(** X7: between two lines with the same number of control points,
    [equals] gives the same answer whichever of the two is asked, as long
    as no pair of their control points is at a distance of exactly the
    tolerance (the selection of the direction tests "below", the loops
    test "above"). *)
Theorem equals_symmetric this l tol :
  List.length (cp this) = List.length (cp l) ->
  regular this l tol ->
  equals this l tol = equals l this tol.
Proof.
  intros Hlen Hreg. unfold equals.
  destruct (cp this) as [|p0 a'] eqn:Ea, (cp l) as [|q0 b'] eqn:Eb;
    try discriminate Hlen; [reflexivity|].
  assert (Hsym : forall p q, In p (p0 :: a') -> In q (q0 :: b') ->
            gtb (dist q p) tol = gtb (dist p q) tol).
  { intros p q Hp Hq. rewrite <- Ea in Hp. rewrite <- Eb in Hq.
    apply (Hreg p q Hp Hq). }
  assert (H00 : ltb (dist q0 p0) tol = ltb (dist p0 q0) tol).
  { apply (Hreg p0 q0); [rewrite Ea | rewrite Eb]; left; reflexivity. }
  rewrite H00. destruct (ltb (dist p0 q0) tol).
  { f_equal. symmetry. now apply compare_loop_sym. }
  rewrite (compare_loop_reversed_sym (p0 :: a') (q0 :: b') tol Hlen Hsym).
  destruct (compare_loop (rev (p0 :: a')) (q0 :: b') tol) eqn:R.
  - (* the reversed pairing holds: both first-point tests succeed *)
    pose proof R as R'.
    rewrite <- (compare_loop_reversed_sym (p0 :: a') (q0 :: b') tol Hlen Hsym)
      in R'.
    destruct (rev (p0 :: a')) as [|pl ra] eqn:Era;
      [apply (f_equal (@List.length Point)) in Era;
       rewrite length_rev in Era; discriminate|].
    destruct (rev (q0 :: b')) as [|ql rb] eqn:Erb;
      [apply (f_equal (@List.length Point)) in Erb;
       rewrite length_rev in Erb; discriminate|].
    destruct (rev_head_last _ _ _ p0 Era) as (Lpl & Ipl).
    destruct (rev_head_last _ _ _ q0 Erb) as (Lql & Iql).
    rewrite Lpl, Lql.
    apply compare_loop_head in R, R'.
    rewrite <- Ea in Ipl. rewrite <- Eb in Iql.
    assert (Ip0 : In p0 (cp this)) by (rewrite Ea; left; reflexivity).
    assert (Iq0 : In q0 (cp l)) by (rewrite Eb; left; reflexivity).
    destruct (Hreg pl q0 Ipl Iq0) as (S1 & _ & D1).
    destruct (Hreg p0 ql Ip0 Iql) as (_ & S2 & D2).
    rewrite S1, D1, R. rewrite D2, <- S2, R'. reflexivity.
  - destruct (ltb (dist q0 (last (p0 :: a') p0)) tol),
             (ltb (dist p0 (last (q0 :: b') q0)) tol); reflexivity.
Qed.

End Equals.

(** *** Control points in space *)

(** Three [double] coordinates, and the euclidean distance that
    [Go::Point::dist] of the GoTools kernel computes. *)
Record Point3 := mkPoint { px : float; py : float; pz : float }.

Definition sq (a : float) : float := (a * a)%float.

Definition dist3 (p q : Point3) : float :=
  PrimFloat.sqrt (sq (px p - px q) + sq (py p - py q) + sq (pz p - pz q))%float.

Definition equals3 (this l : Line Point3) (tol : float) : option bool :=
  equals dist3 PrimFloat.ltb this l tol.

Definition examined3 (this l : Line Point3) (tol : float) :
  list (Point3 * Point3) :=
  examined dist3 PrimFloat.ltb this l tol.

Definition pt (x y z : float) : Point3 := mkPoint x y z.

#[local] Set Warnings "-inexact-float".
(** The default tolerance of [TopologySet]. *)
Definition tol_default : float := 0.0001%float.
#[local] Set Warnings "inexact-float".

(** A straight edge with three control points, and its first two. *)
Definition edge3 : Line Point3 :=
  mkLine [pt 0 0 0; pt 1 0 0; pt 2 0 0].
Definition edge2 : Line Point3 :=
  mkLine [pt 0 0 0; pt 1 0 0].
(** The same three points from the other end, and a shifted copy. *)
Definition edge3_back : Line Point3 :=
  mkLine [pt 2 0 0; pt 1 0 0; pt 0 0 0].
Definition edge3_bent : Line Point3 :=
  mkLine [pt 0 0 0; pt 1 0.5 0; pt 2 0 0].

(** A closed edge: it ends where it starts. *)
Definition loop : Line Point3 :=
  mkLine [pt 0 0 0; pt 1 0 0; pt 1 1 0; pt 0 1 0; pt 0 0 0].
Definition loop_back : Line Point3 := mkLine (rev (cp loop)).

Example equals3_self : equals3 edge3 edge3 tol_default = Some true.
Proof. vm_compute. reflexivity. Qed.
Example equals3_back : equals3 edge3 edge3_back tol_default = Some true.
Proof. vm_compute. reflexivity. Qed.
Example equals3_bent : equals3 edge3 edge3_bent tol_default = Some false.
Proof. vm_compute. reflexivity. Qed.
Example examined3_bent :
  examined3 edge3 edge3_bent tol_default =
  [(pt 0 0 0, pt 0 0 0); (pt 1 0 0, pt 1 0.5 0)].
Proof. vm_compute. reflexivity. Qed.
Example equals3_empty : equals3 edge3 (mkLine []) tol_default = None.
Proof. reflexivity. Qed.
(** A coordinate that is not a number makes a line differ from itself. *)
Example equals3_nan :
  equals3 (mkLine [pt nan 0 0]) (mkLine [pt nan 0 0]) tol_default = Some false.
Proof. vm_compute. reflexivity. Qed.


(** At a distance of exactly the tolerance from the front, and further
    from the back, the first control point selects no direction: the
    result is [false] although no pair of the forward common prefix
    exceeds the tolerance. *)
Definition edge3_off : Line Point3 :=
  mkLine [pt 0.5 0 0; pt 1 0 0; pt 2 0 0].

Example equals3_first_at_tolerance :
  equals3 edge3 edge3_off 0.5 = Some false /\
  forallb (within dist3 PrimFloat.ltb 0.5%float) (pairing Forward edge3 edge3_off)
    = true.
Proof. split; vm_compute; reflexivity. Qed.


(** C5: a closed edge and the copy of it with the control points in
    reverse order are not equal, in either role, although each equals
    itself.  The first point of the argument is within tolerance of both
    ends, the forward pairing is chosen and fails at the second pair. *)
Theorem equals_closed_reversed_false :
  equals3 loop loop tol_default = Some true /\
  equals3 loop loop_back tol_default = Some false /\
  equals3 loop_back loop tol_default = Some false /\
  examined3 loop loop_back tol_default =
    [(pt 0 0 0, pt 0 0 0); (pt 1 0 0, pt 0 1 0)].
Proof. repeat split; vm_compute; reflexivity. Qed.

(** Had the reversed pairing been tried, it would have matched. *)
Example loop_reversed_pairing :
  compare_loop dist3 PrimFloat.ltb (rev (cp loop)) (cp loop_back) tol_default
  = true.
Proof. vm_compute. reflexivity. Qed.

Lemma equals_commits_to_first_point_witness :
  equals3 loop loop_back tol_default =
    Some (compare_loop dist3 PrimFloat.ltb (cp loop) (cp loop_back) tol_default) /\
  examined3 loop loop_back tol_default =
    loop_trace dist3 PrimFloat.ltb (cp loop) (cp loop_back) tol_default /\
  (compare_loop dist3 PrimFloat.ltb (cp loop) (cp loop_back) tol_default = false ->
   equals3 loop loop_back tol_default = Some false).
Proof.
  exact (proj1 (equals_commits_to_first_point dist3 PrimFloat.ltb
                  loop loop_back tol_default _ _ _ _ eq_refl eq_refl)
               eq_refl).
Defined.

(** *** The added properties on lines in space *)

Lemma equals_ignores_tail_witness :
  equals3 edge2 (mkLine (cp edge3 ++ [pt 7 7 7])) tol_default =
    equals3 edge2 edge3 tol_default /\
  examined3 edge2 (mkLine (cp edge3 ++ [pt 7 7 7])) tol_default =
    examined3 edge2 edge3 tol_default.
Proof.
  apply (equals_ignores_tail dist3 PrimFloat.ltb edge2 edge3 [pt 7 7 7]
           tol_default).
  simpl. lia.
Defined.

Ltac each_point H :=
  simpl in H; repeat (destruct H as [<-|H]); try contradiction.

Lemma equals_self_witness : equals3 loop loop tol_default = Some true.
Proof.
  apply (equals_self dist3 PrimFloat.ltb loop tol_default).
  - discriminate.
  - intros p Hp. each_point Hp; split; vm_compute; reflexivity.
Defined.

Lemma equals_reversed_copy_witness :
  equals3 edge3 (mkLine (rev (cp edge3))) tol_default = Some true.
Proof.
  apply (equals_reversed_copy dist3 PrimFloat.ltb edge3 tol_default
           (pt 0 0 0) [pt 1 0 0; pt 2 0 0]).
  - reflexivity.
  - vm_compute. reflexivity.
  - intros p Hp. each_point Hp; split; vm_compute; reflexivity.
Defined.

Lemma equals_symmetric_witness :
  equals3 edge3 edge3_back tol_default = equals3 edge3_back edge3 tol_default.
Proof.
  apply (equals_symmetric dist3 PrimFloat.ltb edge3 edge3_back tol_default).
  - reflexivity.
  - intros p q Hp Hq. each_point Hp; each_point Hq;
      repeat split; vm_compute; reflexivity.
Defined.

(** Without the proviso of equal lengths the answer can depend on which
    line is asked: the longer line finds the shorter one at its back, the
    shorter one finds the first point of the longer at neither end. *)
Example equals3_one_sided :
  equals3 edge3 (mkLine [pt 2 0 0; pt 1 0 0]) tol_default = Some true /\
  equals3 (mkLine [pt 2 0 0; pt 1 0 0]) edge3 tol_default = Some false.
Proof. split; vm_compute; reflexivity. Qed.

(** And so can it at a distance of exactly the tolerance. *)
Example equals3_at_tolerance :
  equals3 (mkLine [pt 0 0 0; pt 1 0 0]) (mkLine [pt 1 0 0; pt 0.5 0 0]) 0.5
    = Some true /\
  equals3 (mkLine [pt 1 0 0; pt 0.5 0 0]) (mkLine [pt 0 0 0; pt 1 0 0]) 0.5
    = Some false.
Proof. split; vm_compute; reflexivity. Qed.

End LineEq.

(* ===================================================================== *)
(** ** The command-line program (main_getPROP.cpp) *)
(* ===================================================================== *)

Module Driver.

#[local] Open Scope string_scope.

(** What a run leaves behind, oldest first: text on the two standard
    streams and files written through an [ofstream]. *)
Inductive Event :=
| Cout (text : string)
| Cerr (text : string)
| FileWrite (name contents : string).

(** The member functions of [SplineModel] (SplineModel.h) that the
    program calls.  Their bodies are not part of the program text; streams
    are passed as their contents. *)
Class SplineModelOps (Model : Type) := {
  newModel : Model;
  readSplines : Model -> string -> Model;
  enforceRightHandSystem : Model -> bool * Model;
  writeSplines : Model -> string;
  readModelProperties : Model -> string -> Model;
  writeModelProperties : Model -> string;
  numbVertices : Model -> Z;
  numbLines : Model -> Z;
  numbNonDegenLines : Model -> Z;
  numbFaces : Model -> Z;
  numbNonDegenFaces : Model -> Z;
  numbVolumes : Model -> Z
}.

(** The files that can be opened for reading, with their contents. *)
Definition FileSystem := string -> option string.

Definition store (fs : FileSystem) (name contents : string) : FileSystem :=
  fun n => if n =? name then Some contents else fs n.

Section Program.
Context {Model : Type} {ops : SplineModelOps Model}.

(** The globals of the program, the file system and the output so far. *)
Record State := mkState {
  verbose : bool;
  inFile : bool;
  inFileName : string;
  model : Model;
  files : FileSystem;
  log : list Event
}.

(** A computation runs to its end, leaves through [exit], or never ends.
    [Spins s]: from the state [s] on, the loop that reads standard input
    goes round for ever, each time printing the prompt and passing the
    text it last read to [readModelProperties] once more. *)
Inductive Result (A : Type) :=
| Done (a : A) (s : State)
| Exited (code : Z) (s : State)
| Spins (s : State).
Arguments Done {A} _ _.
Arguments Exited {A} _ _.
Arguments Spins {A} _.

Definition Prog (A : Type) : Type := State -> Result A.

Definition ret {A} (a : A) : Prog A := fun s => Done a s.

Definition bind {A B} (m : Prog A) (k : A -> Prog B) : Prog B :=
  fun s =>
    match m s with
    | Done a s' => k a s'
    | Exited c s' => Exited c s'
    | Spins s' => Spins s'
    end.

Notation "x <- m ;; k" := (bind m (fun x => k))
  (at level 61, m at next level, right associativity).
Notation "m ;; k" := (bind m (fun _ => k))
  (at level 61, right associativity).

Definition exit {A} (code : Z) : Prog A := fun s => Exited code s.

Definition spin {A} : Prog A := fun s => Spins s.

Definition emit (e : Event) : Prog unit :=
  fun s => Done tt (mkState (verbose s) (inFile s) (inFileName s) (model s)
                            (files s) (log s ++ [e])).

Definition cout (text : string) : Prog unit := emit (Cout text).
Definition cerr (text : string) : Prog unit := emit (Cerr text).

Definition set_verbose (b : bool) : Prog unit :=
  fun s => Done tt (mkState b (inFile s) (inFileName s) (model s)
                            (files s) (log s)).

Definition set_inFile (name : string) : Prog unit :=
  fun s => Done tt (mkState (verbose s) true name (model s)
                            (files s) (log s)).

Definition update_model (f : Model -> Model) : Prog unit :=
  fun s => Done tt (mkState (verbose s) (inFile s) (inFileName s)
                            (f (model s)) (files s) (log s)).

Definition get {A} (f : State -> A) : Prog A := fun s => Done (f s) s.

(** [ifstream::open] followed by [good()]: the contents when the file can
    be read. *)
Definition open_read (name : string) : Prog (option string) :=
  fun s => Done (files s name) s.

(** [ofstream::open], one write of [contents], [close]; the file system
    is taken to accept the write, so that the file reads back as
    [contents] afterwards. *)
Definition write_file (name contents : string) : Prog unit :=
  fun s => Done tt (mkState (verbose s) (inFile s) (inFileName s) (model s)
                            (store (files s) name contents)
                            (log s ++ [FileWrite name contents])).

Definition nl : string := String "010"%char EmptyString.
Definition dq : string := String "034"%char EmptyString.

Definition fileUsage : string :=
  "File usage: gpm [-v] <inputFile> " ++ nl ++
  "  " ++ nl ++
  "  Arguments" ++ nl ++
  "    <inputFile>  : one or more .g2-files describing the spline volumes " ++ nl ++
  "  FLAGS" ++ nl ++
  "    -v           : verbose output  " ++ nl ++
  "    -in <inFile> : uses <inFile> as command input instead of standard in" ++ nl ++
  "    -help        : display this help screen".

(** The three diagnostics of [processParameters]. *)
Definition usage : Event := Cout (fileUsage ++ nl).
Definition errNoInName : Event :=
  Cerr ("Error: must specify an input filename to read" ++ nl).
Definition errReading (arg : string) : Event :=
  Cerr ("Error reading input file " ++ dq ++ arg ++ dq ++ nl).

(** The [for] loop of [processParameters] over [argv[argi..argc-1]];
    [-in] takes the argument after it along ([argv[++argi]]). *)
Fixpoint processArgs (args : list string) (fileRead : bool) : Prog bool :=
  match args with
  | [] => ret fileRead
  | arg :: rest =>
      if arg =? "-v" then
        set_verbose true ;; processArgs rest fileRead
      else if arg =? "-help" then
        cout (fileUsage ++ nl) ;; exit 0
      else if arg =? "-in" then
        match rest with
        | [] => emit errNoInName ;; exit 1
        | name :: rest' => set_inFile name ;; processArgs rest' fileRead
        end
      else
        f <- open_read arg ;;
        match f with
        | None => emit (errReading arg) ;; exit 1
        | Some contents =>
            update_model (fun m => readSplines m contents) ;;
            processArgs rest true
        end
  end.

(** [void processParameters(int argc, char** argv)]; [args] is
    [argv[1..argc-1]]. *)
Definition processParameters (args : list string) : Prog unit :=
  fileRead <- processArgs args false ;;
  if negb fileRead then emit usage ;; exit 1 else ret tt.

Definition show (z : Z) : string := DecimalString.NilZero.string_of_int (Z.to_int z).

Definition warning1 : Event :=
  Cerr ("WARNING: system reparameterized to strict right-hand-system. " ++ nl).
Definition warning2 : Event :=
  Cerr ("         stored in " ++ dq ++ "reparameterized.g2" ++ dq ++ nl).
Definition errOpening (name : string) : Event :=
  Cerr ("Error opening file: " ++ dq ++ name ++ dq ++ nl).

Definition reparameterized : string := "reparameterized.g2".

(** The [do ... while(str.size() > 0)] loop reading property lines from
    standard input.  [input] is standard input split at its newline
    characters: every element but the last is a line that ends with a
    newline, the last is what follows the last newline (empty when the
    input ends with a newline); no elements stands for no input at all.
    [getline] gives a complete line as it is.  For the last element it
    reaches the end of the input: when nothing is left it fails with
    [str] empty, and the loop ends; when an unterminated text is left
    it gives that text, and every later [getline] fails without touching
    [str], so that the loop never ends. *)
Fixpoint interactive (input : list string) : Prog unit :=
  cout "> " ;;
  match input with
  | [] => update_model (fun m => readModelProperties m EmptyString)
  | str :: rest =>
      update_model (fun m => readModelProperties m str) ;;
      if (String.length str =? 0)%nat then ret tt
      else
        match rest with
        | [] => spin
        | _ :: _ => interactive rest
        end
  end.

(** [model.enforceRightHandSystem()] on the global model. *)
Definition enforce : Prog bool :=
  fun s =>
    let (changed, m) := enforceRightHandSystem (model s) in
    Done changed (mkState (verbose s) (inFile s) (inFileName s) m
                          (files s) (log s)).

(** The four lines printed under [-v].  [main] reads the counts through
    the pointer it got from [getTopology()] before the orientation
    fix-up; they are taken here from the model as it is when they are
    printed. *)
Definition report : Prog unit :=
  m <- get model ;;
  cout ("Total number of vertices: " ++ show (numbVertices m) ++ nl) ;;
  cout ("Total number of lines   : " ++ show (numbLines m) ++ " (" ++
        show (numbNonDegenLines m) ++ " non-degenerate ones) " ++ nl) ;;
  cout ("Total number of faces   : " ++ show (numbFaces m) ++ " (" ++
        show (numbNonDegenFaces m) ++ " non-degenerate ones) " ++ nl) ;;
  cout ("Total number of volumes : " ++ show (numbVolumes m) ++ nl).

(** Lines 104-111 of [main]: the orientation fix-up and what follows a
    change. *)
Definition reparameterize : Prog unit :=
  changed <- enforce ;;
  if changed then
    emit warning1 ;;
    emit warning2 ;;
    m <- get model ;;
    write_file reparameterized (writeSplines m)
  else ret tt.

(** Lines 121-138: the property records, from the [-in] file or from
    standard input. *)
Definition readProperties (input : list string) : Prog unit :=
  fromFile <- get inFile ;;
  if fromFile then
    name <- get inFileName ;;
    f <- open_read name ;;
    match f with
    | None => emit (errOpening name) ;; exit 1
    | Some contents => update_model (fun m => readModelProperties m contents)
    end
  else interactive input.

(** What [main] does once the orientation has been dealt with. *)
Definition epilogue (input : list string) : Prog Z :=
  v <- get verbose ;;
  (if v then report else ret tt) ;;
  readProperties input ;;
  m <- get model ;;
  cout (writeModelProperties m) ;;
  ret 0%Z.

(** [int main(int argc, char **argv)]; the value is the exit status. *)
Definition main (args input : list string) : Prog Z :=
  processParameters args ;;
  reparameterize ;;
  epilogue input.

(** The state the process starts in. *)
Definition initial (fs : FileSystem) : State :=
  mkState false false EmptyString newModel fs [].

Definition final {A} (r : Result A) : State :=
  match r with Done _ s => s | Exited _ s => s | Spins s => s end.

(** The exit status; a run that never ends has none, which [-1] stands
    for (the program passes only 0 and 1 to [exit] and [return]). *)
Definition status (r : Result Z) : Z :=
  match r with Done a _ => a | Exited c _ => c | Spins _ => -1 end.

(** Running the program from a fresh process. *)
Definition run (fs : FileSystem) (args input : list string) : Result Z :=
  main args input (initial fs).

(** *** The command line as the loop reads it *)

(** The arguments taken as input files, in order: everything that is
    neither a flag nor the file name following [-in]. *)
Fixpoint inputFiles (args : list string) : list string :=
  match args with
  | [] => []
  | arg :: rest =>
      if arg =? "-v" then inputFiles rest
      else if arg =? "-help" then inputFiles rest
      else if arg =? "-in" then
        match rest with
        | [] => []
        | _ :: rest' => inputFiles rest'
        end
      else arg :: inputFiles rest
  end.

(** [-in] is the last argument, with no file name after it. *)
Fixpoint danglingIn (args : list string) : bool :=
  match args with
  | [] => false
  | arg :: rest =>
      if arg =? "-v" then danglingIn rest
      else if arg =? "-help" then danglingIn rest
      else if arg =? "-in" then
        match rest with
        | [] => true
        | _ :: rest' => danglingIn rest'
        end
      else danglingIn rest
  end.

Definition nonempty {A} (l : list A) : bool :=
  match l with [] => false | _ => true end.

(** Text on a standard stream, as opposed to a file written. *)
Definition is_text (e : Event) : Prop :=
  match e with FileWrite _ _ => False | _ => True end.

(** What [processArgs] does, case by case. *)
Definition processArgs_post (args : list string) (fileRead : bool)
  (s : State) (r : Result bool) : Prop :=
  match r with
  | Done fileRead' s' =>
      log s' = log s /\ files s' = files s /\
      danglingIn args = false /\
      (forall f, In f (inputFiles args) -> files s f <> None) /\
      fileRead' = fileRead || nonempty (inputFiles args)
  | Exited c s' =>
      files s' = files s /\
      exists d, log s' = (log s ++ [d])%list /\
        ((c = 0%Z /\ d = usage /\ In "-help" args) \/
         (c = 1%Z /\ d = errNoInName /\ danglingIn args = true) \/
         (c = 1%Z /\ exists f, d = errReading f /\ In f (inputFiles args) /\
                               files s f = None))
  | Spins _ => False
  end.

Lemma processArgs_post_shift args args' fr fr' s s' r :
  log s' = log s -> files s' = files s ->
  danglingIn args = danglingIn args' ->
  (forall f, In f (inputFiles args') -> In f (inputFiles args)) ->
  (In "-help" args' -> In "-help" args) ->
  fr' || nonempty (inputFiles args') = fr || nonempty (inputFiles args) ->
  (forall f, In f (inputFiles args) -> ~ In f (inputFiles args') ->
     files s f <> None) ->
  processArgs_post args' fr' s' r -> processArgs_post args fr s r.
Proof.
  intros Hl Hf Hd Hsub Hh Hfr Hnew. unfold processArgs_post.
  destruct r as [b t|c t|t]; [| |exact (fun K => K)].
  - intros (A & B & C & E & F). repeat split; try congruence.
    intros f Hin K.
    destruct (in_dec string_dec f (inputFiles args')) as [I|I].
    + apply (E f I). congruence.
    + now apply (Hnew f Hin I).
  - intros (A & d & B & C). split; [congruence|].
    exists d. split; [congruence|].
    destruct C as [(C1 & C2 & C3)|[(C1 & C2 & C3)|(C1 & f & C2 & C3 & C4)]].
    + left. auto.
    + right. left. repeat split; congruence.
    + right. right. split; auto. exists f. repeat split; auto. congruence.
Qed.

Lemma processArgs_spec_bounded n :
  forall args, (List.length args <= n)%nat ->
  forall fileRead s,
    processArgs_post args fileRead s (processArgs args fileRead s).
Proof.
  induction n as [|n IH]; intros [|arg rest] Hlen fr s; simpl in Hlen;
    try lia.
  - simpl. repeat split; auto. now rewrite orb_false_r.
  - simpl. repeat split; auto. now rewrite orb_false_r.
  - simpl processArgs. destruct (arg =? "-v") eqn:Ev.
    { unfold bind, set_verbose.
      eapply processArgs_post_shift; [..|apply IH; lia];
        simpl; rewrite ?Ev; auto.
      all: try (intros f H1 H2; contradiction). }
    destruct (arg =? "-help") eqn:Eh.
    { apply String.eqb_eq in Eh. subst arg.
      unfold bind, cout, emit, exit. simpl. split; auto.
      exists usage. split; auto. }
    destruct (arg =? "-in") eqn:Ei.
    { destruct rest as [|name rest'].
      - unfold bind, emit, exit. simpl. rewrite Ev, Eh, Ei. split; auto.
        exists errNoInName. split; auto.
      - unfold bind, set_inFile.
        eapply processArgs_post_shift; [..|apply IH; simpl in Hlen; lia];
          simpl; rewrite ?Ev, ?Eh, ?Ei; auto.
        all: try (intros f H1 H2; contradiction). }
    unfold bind at 1. unfold open_read at 1.
    destruct (files s arg) as [contents|] eqn:Ef.
    + unfold bind, update_model.
      eapply processArgs_post_shift; [..|apply IH; lia];
        simpl; rewrite ?Ev, ?Eh, ?Ei; simpl; auto.
      * rewrite orb_true_r. reflexivity.
      * intros f [<-|H1] H2; [congruence|contradiction].
    + unfold bind, emit, exit. simpl. rewrite Ev, Eh, Ei. split; auto.
      exists (errReading arg). split; auto.
      right. right. split; auto. exists arg. simpl. auto.
Qed.

Lemma processArgs_spec args fileRead s :
  processArgs_post args fileRead s (processArgs args fileRead s).
Proof. now apply (processArgs_spec_bounded (List.length args)). Qed.

Lemma processParameters_done args s s1 :
  processParameters args s = Done tt s1 ->
  log s1 = log s /\ files s1 = files s.
Proof.
  unfold processParameters, bind.
  pose proof (processArgs_spec args false s) as H.
  destruct (processArgs args false s) as [fr t|c t|t];
    [|discriminate|discriminate].
  destruct H as (Hl & Hf & _).
  destruct (negb fr); simpl; [discriminate|].
  intros E. inversion E. subst. auto.
Qed.

(** *** Steps that write no file *)

Definition quiet {A} (p : Prog A) : Prop :=
  forall s,
    files (final (p s)) = files s /\
    exists post, log (final (p s)) = (log s ++ post)%list /\
                 Forall is_text post.

Lemma quiet_ret {A} (a : A) : quiet (ret a).
Proof.
  intros s. simpl. split; auto. exists []. now rewrite app_nil_r.
Qed.

Lemma quiet_exit {A} c : quiet (@exit A c).
Proof.
  intros s. simpl. split; auto. exists []. now rewrite app_nil_r.
Qed.

Lemma quiet_get {A} (f : State -> A) : quiet (get f).
Proof.
  intros s. simpl. split; auto. exists []. now rewrite app_nil_r.
Qed.

Lemma quiet_open_read name : quiet (open_read name).
Proof.
  intros s. simpl. split; auto. exists []. now rewrite app_nil_r.
Qed.

Lemma quiet_update_model f : quiet (update_model f).
Proof.
  intros s. simpl. split; auto. exists []. now rewrite app_nil_r.
Qed.

Lemma quiet_emit e : is_text e -> quiet (emit e).
Proof.
  intros He s. simpl. split; auto. exists [e]. auto.
Qed.

Lemma quiet_cout text : quiet (cout text).
Proof. apply quiet_emit. exact I. Qed.

Lemma quiet_bind {A B} (m : Prog A) (k : A -> Prog B) :
  quiet m -> (forall a, quiet (k a)) -> quiet (bind m k).
Proof.
  intros Hm Hk s. unfold bind.
  destruct (Hm s) as (Hf & post & Hl & Ht).
  destruct (m s) as [a t|c t|t]; simpl in *.
  - destruct (Hk a t) as (Hf' & post' & Hl' & Ht').
    split; [congruence|]. exists (post ++ post')%list.
    rewrite Hl', Hl, app_assoc. split; auto. apply Forall_app. auto.
  - split; auto. exists post. auto.
  - split; auto. exists post. auto.
Qed.

Create HintDb quiet.
#[local] Hint Resolve quiet_ret quiet_exit quiet_get quiet_open_read
  quiet_update_model quiet_cout : quiet.

Ltac quiet_steps :=
  repeat lazymatch goal with
  | |- quiet (bind _ _) => apply quiet_bind; [|intros ?]
  | |- quiet (emit _) => apply quiet_emit; exact I
  | |- quiet (if ?b then _ else _) => destruct b
  | |- quiet (match ?o with Some _ => _ | None => _ end) => destruct o
  | |- _ => solve [auto with quiet]
  end.

Lemma quiet_spin {A} : quiet (@spin A).
Proof.
  intros s. simpl. split; auto. exists []. now rewrite app_nil_r.
Qed.

Lemma quiet_interactive input : quiet (interactive input).
Proof.
  induction input as [|str rest IH]; cbn [interactive]; quiet_steps.
  apply quiet_spin.
Qed.

Lemma quiet_report : quiet report.
Proof. unfold report. quiet_steps. Qed.

#[local] Hint Resolve quiet_interactive quiet_report : quiet.

Lemma quiet_readProperties input : quiet (readProperties input).
Proof. unfold readProperties. quiet_steps. Qed.

#[local] Hint Resolve quiet_readProperties : quiet.

Lemma quiet_epilogue input : quiet (epilogue input).
Proof. unfold epilogue. quiet_steps. Qed.


Lemma bind_done {A B} (m : Prog A) (k : A -> Prog B) s a t :
  m s = Done a t -> bind m k s = k a t.
Proof. intros H. unfold bind. now rewrite H. Qed.

(** The orientation step never exits; this is the state it leaves. *)
Lemma reparameterize_run s :
  reparameterize s =
  Done tt
    (let (changed, m) := enforceRightHandSystem (model s) in
     if changed then
       mkState (verbose s) (inFile s) (inFileName s) m
               (store (files s) reparameterized (writeSplines m))
               (log s ++ [warning1; warning2;
                          FileWrite reparameterized (writeSplines m)])%list
     else
       mkState (verbose s) (inFile s) (inFileName s) m (files s) (log s)).
Proof.
  unfold reparameterize, enforce, bind.
  destruct (enforceRightHandSystem (model s)) as [[|] m]; simpl.
  - unfold emit, get, write_file, bind. simpl.
    now rewrite <- !app_assoc.
  - reflexivity.
Qed.

(** C9: once [processParameters] has returned, [main] writes the patches
    as rewritten by [enforceRightHandSystem] to "reparameterized.g2",
    after the two warning lines, exactly when that call returns [true];
    when it returns [false] the run writes no file at all. *)
Theorem reparameterized_written_iff fs args input s1 :
  processParameters args (initial fs) = Done tt s1 ->
  let cm := enforceRightHandSystem (model s1) in
  let s' := final (run fs args input) in
  (fst cm = true ->
     (exists post,
        log s' = ([warning1; warning2;
                   FileWrite reparameterized (writeSplines (snd cm))] ++ post)%list /\
        Forall is_text post) /\
     (forall name,
        files s' name = store fs reparameterized (writeSplines (snd cm)) name)) /\
  (fst cm = false ->
     Forall is_text (log s') /\ forall name, files s' name = fs name).
Proof.
  intros Hp cm s'. subst s' cm. unfold run, main.
  rewrite (bind_done _ _ _ _ _ Hp).
  destruct (processParameters_done _ _ _ Hp) as (Hl & Hf). simpl in Hl, Hf.
  pose proof (reparameterize_run s1) as Hr.
  destruct (enforceRightHandSystem (model s1)) as [changed m].
  simpl fst. simpl snd.
  destruct changed; rewrite (bind_done _ _ _ _ _ Hr);
    (split; intros E; try discriminate);
    match goal with |- context [epilogue input ?t] =>
      destruct (quiet_epilogue input t) as (Kf & post & Kl & Kt) end;
    simpl in Kf, Kl.
  - split.
    + exists post. rewrite Kl, Hl. simpl. auto.
    + intros name. now rewrite Kf, Hf.
  - split.
    + rewrite Kl, Hl. simpl. auto.
    + intros name. now rewrite Kf, Hf.
Qed.

(** Leaving in [processParameters] is leaving the program: nothing after
    it runs. *)
Lemma exit_in_parameters args input s c s' :
  processParameters args s = Exited c s' ->
  main args input s = Exited c s'.
Proof. intros H. unfold main, bind. now rewrite H. Qed.

(** The file named after [-in] is opened last; when it cannot be opened
    the program leaves with status 1 and says so. *)
Lemma unreadable_property_file args input s s1 s2 :
  processParameters args s = Done tt s1 ->
  reparameterize s1 = Done tt s2 ->
  inFile s2 = true ->
  files s2 (inFileName s2) = None ->
  exists s' pre,
    main args input s = Exited 1 s' /\
    log s' = (pre ++ [errOpening (inFileName s2)])%list.
Proof.
  intros Hp Hr Hin Hf. unfold main.
  rewrite (bind_done _ _ _ _ _ Hp), (bind_done _ _ _ _ _ Hr).
  unfold epilogue, readProperties, report, bind, get, cout, emit,
    open_read, exit.
  destruct (verbose s2); simpl; rewrite Hin; simpl; rewrite Hf; simpl;
    (do 2 eexists; split; [reflexivity|]; simpl; reflexivity).
Qed.

(** *** What an accepted command line leaves behind *)

(** [-v] occurs where a flag is looked for. *)
Fixpoint flagV (args : list string) : bool :=
  match args with
  | [] => false
  | arg :: rest =>
      if arg =? "-v" then true
      else if arg =? "-help" then flagV rest
      else if arg =? "-in" then
        match rest with
        | [] => false
        | _ :: rest' => flagV rest'
        end
      else flagV rest
  end.

(** The file name after the last [-in]. *)
Fixpoint commandFile (args : list string) : option string :=
  match args with
  | [] => None
  | arg :: rest =>
      if arg =? "-v" then commandFile rest
      else if arg =? "-help" then commandFile rest
      else if arg =? "-in" then
        match rest with
        | [] => None
        | name :: rest' =>
            match commandFile rest' with
            | Some later => Some later
            | None => Some name
            end
        end
      else commandFile rest
  end.

(** [readSplines] on the contents of the named files, one after the
    other. *)
Definition readAll (fs : FileSystem) (names : list string) (m : Model) : Model :=
  fold_left
    (fun m name =>
       match fs name with
       | Some contents => readSplines m contents
       | None => m
       end)
    names m.

Definition parsed (args : list string) (s s' : State) : Prop :=
  verbose s' = verbose s || flagV args /\
  inFile s' = inFile s || match commandFile args with
                          | Some _ => true
                          | None => false
                          end /\
  inFileName s' = match commandFile args with
                  | Some name => name
                  | None => inFileName s
                  end /\
  model s' = readAll (files s) (inputFiles args) (model s).

Lemma processArgs_parsed_bounded n :
  forall args, (List.length args <= n)%nat ->
  forall fileRead s fileRead' s',
    processArgs args fileRead s = Done fileRead' s' -> parsed args s s'.
Proof.
  induction n as [|n IH]; intros [|arg rest] Hlen fr s fr' s' H;
    simpl in Hlen; try lia;
    try (inversion H; subst; unfold parsed; simpl;
         rewrite !orb_false_r; auto; fail).
  simpl in H. unfold parsed. simpl.
  destruct (arg =? "-v") eqn:Ev.
  { unfold bind, set_verbose in H.
    apply IH in H; [|lia]. destruct H as (V & F & N & M). simpl in *.
    rewrite orb_true_r. auto. }
  destruct (arg =? "-help") eqn:Eh.
  { discriminate H. }
  destruct (arg =? "-in") eqn:Ei.
  { destruct rest as [|name rest']; [discriminate H|].
    unfold bind, set_inFile in H.
    apply IH in H; [|simpl in Hlen; lia].
    destruct H as (V & F & N & M). simpl in *.
    repeat split; auto.
    - rewrite F. destruct (commandFile rest'); now rewrite ?orb_true_r.
    - rewrite N. destruct (commandFile rest'); reflexivity. }
  unfold bind at 1 in H. unfold open_read at 1 in H.
  destruct (files s arg) as [contents|] eqn:Ef; [|discriminate H].
  unfold bind, update_model in H.
  apply IH in H; [|lia]. destruct H as (V & F & N & M). simpl in *.
  repeat split; auto. rewrite Ef. exact M.
Qed.

(** X8: when [processParameters] returns, [verbose] is set if [-v] was
    given, the name after the last [-in] is the command file, the model
    has read the input files in the order of the command line, at least
    one of them, and nothing has been printed. *)
Theorem processParameters_returns args s s1 :
  processParameters args s = Done tt s1 ->
  parsed args s s1 /\
  inputFiles args <> [] /\
  (forall f, In f (inputFiles args) -> files s f <> None) /\
  danglingIn args = false /\
  log s1 = log s /\ files s1 = files s.
Proof.
  unfold processParameters, bind. intros H.
  pose proof (processArgs_spec args false s) as P.
  pose proof (processArgs_parsed_bounded (List.length args) args (le_n _)
                false s) as Q.
  destruct (processArgs args false s) as [fr t|c t|t];
    [|discriminate H|discriminate H].
  destruct P as (Hl & Hf & Hd & Hr & Hfr). simpl in Hfr. subst fr.
  destruct (inputFiles args) as [|f0 fs0] eqn:E; simpl in H;
    [discriminate H|].
  inversion H; subst t. split; [now apply (Q true)|].
  repeat split; auto. discriminate.
Qed.

(** *** Left to right *)

Lemma processArgs_app_bounded n :
  forall pre, (List.length pre <= n)%nat ->
  forall rest fileRead s fileRead' s',
    processArgs pre fileRead s = Done fileRead' s' ->
    processArgs (pre ++ rest) fileRead s = processArgs rest fileRead' s'.
Proof.
  induction n as [|n IH]; intros [|arg pre] Hlen rest fr s fr' s' H;
    simpl in Hlen; try lia;
    try (inversion H; subst; reflexivity).
  simpl in H. simpl.
  destruct (arg =? "-v").
  { unfold bind, set_verbose in *. apply IH; [lia | exact H]. }
  destruct (arg =? "-help"); [discriminate H|].
  destruct (arg =? "-in").
  { destruct pre as [|name pre']; [discriminate H|].
    simpl. unfold bind, set_inFile in *.
    apply IH; [simpl in Hlen; lia | exact H]. }
  unfold bind at 1 in H. unfold bind at 1.
  unfold open_read at 1 in H. unfold open_read at 1.
  destruct (files s arg) as [contents|]; [|discriminate H].
  unfold bind, update_model in *. apply IH; [lia | exact H].
Qed.

(** X9: arguments are handled strictly from left to right: once a
    prefix of the command line has been accepted, what follows is handled
    as a command line of its own, from the state the prefix left. *)
Theorem processArgs_left_to_right pre rest fileRead s fileRead' s' :
  processArgs pre fileRead s = Done fileRead' s' ->
  processArgs (pre ++ rest) fileRead s = processArgs rest fileRead' s'.
Proof. apply (processArgs_app_bounded (List.length pre)). apply le_n. Qed.

(** X10: [-help] after an accepted prefix ends the program with status 0
    and the usage text as its only output, whatever comes after it on the
    command line and whether or not an input file has been read. *)
Theorem help_wins pre post input fileRead s s' :
  processArgs pre false s = Done fileRead s' ->
  exists t,
    main (pre ++ "-help" :: post) input s = Exited 0 t /\
    log t = (log s ++ [usage])%list /\ files t = files s.
Proof.
  intros H. unfold main, processParameters. unfold bind at 1 2.
  rewrite (processArgs_app_bounded (List.length pre) pre (le_n _) _ _ _ _ _ H).
  pose proof (processArgs_spec pre false s) as P. rewrite H in P.
  destruct P as (Hl & Hf & _).
  simpl. unfold bind, cout, emit, exit. simpl.
  eexists. split; [reflexivity|]. simpl. rewrite Hl, Hf. auto.
Qed.

(** *** The interactive loop *)

(** [str.size() > 0] *)
Definition nonblank (str : string) : Prop := String.length str <> 0%nat.

(** The state after [lines] have been prompted for and read. *)
Definition prompted (lines : list string) (s : State) : State :=
  mkState (verbose s) (inFile s) (inFileName s)
          (fold_left readModelProperties lines (model s))
          (files s)
          (log s ++ repeat (Cout "> ") (List.length lines)).

(** A line with text that is followed by a newline is read, and the loop
    goes on with what follows. *)
Lemma interactive_more str next rest s :
  nonblank str ->
  interactive (str :: next :: rest) s =
  interactive (next :: rest) (prompted [str] s).
Proof.
  intros H. apply Nat.eqb_neq in H.
  change (interactive (str :: next :: rest) s)
    with ((cout "> " ;;
           update_model (fun m => readModelProperties m str) ;;
           if (String.length str =? 0)%nat then ret tt
           else interactive (next :: rest)) s).
  unfold bind at 1 2. unfold cout, emit, update_model. rewrite H.
  reflexivity.
Qed.

(** X11: the first empty line ends the interactive entry: the lines up
    to and including it have been prompted for and passed to
    [readModelProperties], in order, and whatever follows it on standard
    input is not read. *)
Theorem interactive_stops_at_empty_line pre post s :
  Forall nonblank pre ->
  interactive (pre ++ EmptyString :: post) s =
  Done tt (prompted (pre ++ [EmptyString]) s).
Proof.
  intros H. revert s. induction H as [|str pre Hs Hpre IH]; intros s.
  - reflexivity.
  - assert (E : exists next rest,
               (pre ++ EmptyString :: post)%list = next :: rest)
      by (destruct pre; simpl; eauto).
    destruct E as (next & rest & E).
    change ((str :: pre) ++ EmptyString :: post)%list
      with (str :: (pre ++ EmptyString :: post))%list.
    rewrite E, (interactive_more _ _ _ _ Hs), <- E, IH.
    unfold prompted. simpl. rewrite <- app_assoc. reflexivity.
Qed.

(** Standard input that is not empty, has no empty line and does not end
    with a newline: split at its newlines, it has no empty element. *)
Definition unterminated (input : list string) : Prop :=
  input <> [] /\ Forall nonblank input.

(** The loop ends unless standard input is unterminated, and then it
    never does. *)
Lemma interactive_outcome input s :
  (unterminated input /\ exists t, interactive input s = Spins t) \/
  (~ unterminated input /\ exists t, interactive input s = Done tt t).
Proof.
  revert s. induction input as [|str rest IH]; intros s.
  - right. split; [intros [H _]; now apply H|]. eexists. reflexivity.
  - destruct (String.length str =? 0)%nat eqn:E.
    + right. split.
      * intros [_ H]. inversion H; subst. apply Nat.eqb_eq in E.
        contradiction.
      * cbn [interactive]. unfold bind, cout, emit, update_model.
        rewrite E. eexists. reflexivity.
    + destruct rest as [|next rest].
      * left. split.
        -- split; [discriminate|]. constructor; [|constructor].
           now apply Nat.eqb_neq in E.
        -- cbn [interactive]. unfold bind, cout, emit, update_model, spin.
           rewrite E. eexists. reflexivity.
      * apply Nat.eqb_neq in E. rewrite (interactive_more _ _ _ _ E).
        destruct (IH (prompted [str] s)) as [(U & t & R)|(U & t & R)].
        -- left. split; [|eauto]. destruct U as [_ U].
           split; [discriminate|]. constructor; auto.
        -- right. split; [|eauto]. intros [_ H]. apply U.
           inversion H; subst. split; [discriminate|auto].
Qed.

(** *** How a run ends *)

(** The four messages that precede an exit with status 1, and the usage
    text. *)
Definition diagnostic (d : Event) : Prop :=
  d = usage \/ d = errNoInName \/
  (exists f, d = errReading f) \/ (exists f, d = errOpening f).

Lemma report_returns s :
  exists t, report s = Done tt t /\
    verbose t = verbose s /\ inFile t = inFile s /\
    inFileName t = inFileName s /\ model t = model s /\ files t = files s.
Proof.
  unfold report, bind, get, cout, emit. simpl.
  eexists. split; [reflexivity|]. simpl. auto 10.
Qed.

Lemma bind_exit {A B} (m : Prog A) (k : A -> Prog B) s c t :
  m s = Exited c t -> bind m k s = Exited c t.
Proof. intros H. unfold bind. now rewrite H. Qed.

Lemma bind_spin {A B} (m : Prog A) (k : A -> Prog B) s t :
  m s = Spins t -> bind m k s = Spins t.
Proof. intros H. unfold bind. now rewrite H. Qed.

Lemma readProperties_outcome input s :
  (exists t, readProperties input s = Done tt t) \/
  (exists t, readProperties input s = Exited 1 t /\
             log t = (log s ++ [errOpening (inFileName s)])%list /\
             inFile s = true /\ files t = files s) \/
  (exists t, readProperties input s = Spins t /\
             inFile s = false /\ unterminated input).
Proof.
  unfold readProperties.
  rewrite (bind_done (get inFile) _ s (inFile s) s eq_refl).
  destruct (inFile s).
  - rewrite (bind_done (get inFileName) _ s (inFileName s) s eq_refl).
    rewrite (bind_done (open_read (inFileName s)) _ s
               (files s (inFileName s)) s eq_refl).
    destruct (files s (inFileName s)) as [contents|].
    + left. eexists. reflexivity.
    + right. left. eexists. split; [reflexivity|]. simpl. auto.
  - destruct (interactive_outcome input s) as [(U & t & R)|(U & t & R)].
    + right. right. eauto.
    + left. eauto.
Qed.

Lemma readProperties_spins input s :
  inFile s = false -> unterminated input ->
  exists t, readProperties input s = Spins t.
Proof.
  intros Hin Hu. unfold readProperties.
  rewrite (bind_done (get inFile) _ s (inFile s) s eq_refl), Hin.
  destruct (interactive_outcome input s) as [(_ & t & R)|(U & _)]; eauto.
  contradiction.
Qed.

(** What comes before the property records are read. *)
Lemma epilogue_prologue s :
  exists t, (if verbose s then report else ret tt) s = Done tt t /\
            inFile t = inFile s /\ inFileName t = inFileName s /\
            files t = files s.
Proof.
  destruct (verbose s).
  - destruct (report_returns s) as (t & E & _ & F & N & _ & G). eauto.
  - eexists. split; [reflexivity|]. auto.
Qed.

Lemma epilogue_outcome input s :
  (exists t, epilogue input s = Done 0 t) \/
  (exists t pre, epilogue input s = Exited 1 t /\
                 log t = (pre ++ [errOpening (inFileName s)])%list /\
                 inFile s = true /\ files t = files s) \/
  (exists t, epilogue input s = Spins t /\
             inFile s = false /\ unterminated input).
Proof.
  unfold epilogue.
  rewrite (bind_done (get verbose) _ s (verbose s) s eq_refl).
  destruct (epilogue_prologue s) as (t & E & F & N & G).
  rewrite (bind_done _ _ _ _ _ E).
  destruct (readProperties_outcome input t)
    as [(u & R)|[(u & R & L & I & H)|(u & R & I & U)]].
  - left. rewrite (bind_done _ _ _ _ _ R).
    unfold bind, get, cout, emit, ret. simpl. eauto.
  - right. left. rewrite (bind_exit _ _ _ _ _ R).
    exists u, (log t). rewrite <- N, <- F, <- G. auto.
  - right. right. rewrite (bind_spin _ _ _ _ R).
    exists u. rewrite <- F. auto.
Qed.

Lemma epilogue_spins input s :
  inFile s = false -> unterminated input ->
  exists t, epilogue input s = Spins t.
Proof.
  intros Hin Hu. unfold epilogue.
  rewrite (bind_done (get verbose) _ s (verbose s) s eq_refl).
  destruct (epilogue_prologue s) as (t & E & F & _).
  rewrite (bind_done _ _ _ _ _ E).
  destruct (readProperties_spins input t (eq_trans F Hin) Hu) as (u & R).
  rewrite (bind_spin _ _ _ _ R). eauto.
Qed.

Lemma processParameters_outcome args s :
  match processParameters args s with
  | Done _ _ => True
  | Exited c t =>
      (c = 0%Z \/ c = 1%Z) /\
      exists d, log t = (log s ++ [d])%list /\ diagnostic d
  | Spins _ => False
  end.
Proof.
  unfold processParameters, bind.
  pose proof (processArgs_spec args false s) as P.
  destruct (processArgs args false s) as [fr t|c t|t]; simpl in P.
  - destruct (negb fr); simpl; [|exact I].
    split; [auto|]. exists usage. destruct P as (-> & _).
    split; [reflexivity|]. left. reflexivity.
  - destruct P as (_ & d & L & C). simpl.
    destruct C as [(-> & -> & _)|[(-> & -> & _)|(-> & f & -> & _)]];
      (split; [auto|]); eexists; (split; [exact L|]); unfold diagnostic;
      eauto 6.
  - exact P.
Qed.

(** The orientation step leaves the command line settings alone. *)
Lemma reparameterize_keeps s :
  exists u, reparameterize s = Done tt u /\ inFile u = inFile s.
Proof.
  eexists. split; [apply reparameterize_run|].
  destruct (enforceRightHandSystem (model s)) as [[|] m]; reflexivity.
Qed.

(** The property records are to be typed in: the command line has been
    accepted and has no [-in]. *)
Definition reads_stdin (args : list string) (s : State) : Prop :=
  exists s1, processParameters args s = Done tt s1 /\ inFile s1 = false.

(** X12: a run never ends exactly when the property records are read from
    standard input and standard input is not empty, has no empty line and
    does not end with a newline; a run that ends does so with status 0 or
    1, and never with status 1 without a diagnostic as the last thing it
    printed. *)
Theorem main_status args input s :
  let r := main args input s in
  ((exists t, r = Spins t) <-> reads_stdin args s /\ unterminated input) /\
  ((forall t, r <> Spins t) -> status r = 0%Z \/ status r = 1%Z) /\
  (status r = 1%Z ->
   exists pre d, log (final r) = (pre ++ [d])%list /\ diagnostic d).
Proof.
  intros r. subst r. unfold main, reads_stdin.
  pose proof (processParameters_outcome args s) as P.
  destruct (processParameters args s) as [[] s1|c t|t] eqn:E;
    [| |contradiction].
  - rewrite (bind_done _ _ _ _ _ E).
    destruct (reparameterize_keeps s1) as (u & Hr & Hi).
    rewrite (bind_done _ _ _ _ _ Hr).
    destruct (epilogue_outcome input u)
      as [(v & R)|[(v & pre & R & L & I & _)|(v & R & I & U)]].
    + split; [split|split].
      * rewrite R. intros (t & K). discriminate K.
      * intros ((s1' & K & Hin) & U). inversion K; subst s1'.
        destruct (epilogue_spins input u (eq_trans Hi Hin) U) as (t & S).
        rewrite R in S. discriminate S.
      * rewrite R. simpl. auto.
      * rewrite R. simpl. discriminate.
    + split; [split|split].
      * rewrite R. intros (t & K). discriminate K.
      * intros ((s1' & K & Hin) & U). inversion K; subst s1'. congruence.
      * rewrite R. simpl. auto.
      * rewrite R. simpl. intros _. exists pre. eexists.
        split; [exact L|]. right. right. right. eauto.
    + split; [split|split].
      * intros _. split; [|exact U]. exists s1. split; [reflexivity|].
        congruence.
      * rewrite R. eauto.
      * intros K. exfalso. apply (K v). exact R.
      * rewrite R. simpl. discriminate.
  - rewrite (bind_exit _ _ _ _ _ E). simpl.
    destruct P as (C & d & L & K). split; [split|split].
    + intros (u & K'). discriminate K'.
    + intros ((s1 & K' & _) & _). discriminate K'.
    + intros _. exact C.
    + intros _. exists (log s), d. auto.
Qed.

(** *** The command file *)

Lemma processParameters_parsed args s s1 :
  processParameters args s = Done tt s1 -> parsed args s s1.
Proof.
  unfold processParameters, bind. intros H.
  pose proof (processArgs_parsed_bounded (List.length args) args (le_n _)
                false s) as Q.
  destruct (processArgs args false s) as [fr t|c t|t];
    [|discriminate H|discriminate H].
  destruct (negb fr); simpl in H; [discriminate H|].
  inversion H; subst t. now apply (Q fr).
Qed.

(** From a fresh process that is: the command line is accepted and has
    no [-in]. *)
Lemma reads_stdin_initial fs args :
  reads_stdin args (initial fs) <->
  (exists s1, processParameters args (initial fs) = Done tt s1) /\
  commandFile args = None.
Proof.
  unfold reads_stdin. split.
  - intros (s1 & H & Hin). split; [eauto|].
    destruct (processParameters_parsed _ _ _ H) as (_ & F & _).
    simpl in F. rewrite Hin in F.
    destruct (commandFile args); [discriminate F | reflexivity].
  - intros ((s1 & H) & Hc). exists s1. split; [exact H|].
    destruct (processParameters_parsed _ _ _ H) as (_ & F & _).
    simpl in F. now rewrite Hc in F.
Qed.

Lemma readProperties_command_file input s :
  inFile s = true ->
  readProperties input s =
  match files s (inFileName s) with
  | Some contents =>
      Done tt (mkState (verbose s) (inFile s) (inFileName s)
                       (readModelProperties (model s) contents)
                       (files s) (log s))
  | None =>
      Exited 1 (mkState (verbose s) (inFile s) (inFileName s) (model s)
                        (files s) (log s ++ [errOpening (inFileName s)]))
  end.
Proof.
  intros H. unfold readProperties, bind, get, open_read, update_model, emit, exit.
  rewrite H. destruct (files s (inFileName s)); simpl; rewrite ?H; reflexivity.
Qed.

(** With [inFile] set the epilogue takes the property records from the
    command file, as the file system has it then. *)
Lemma epilogue_command_file input s :
  inFile s = true ->
  match files s (inFileName s) with
  | None =>
      exists t pre,
        epilogue input s = Exited 1 t /\
        log t = (log s ++ pre ++ [errOpening (inFileName s)])%list /\
        files t = files s
  | Some contents =>
      exists t pre,
        epilogue input s = Done 0 t /\
        model t = readModelProperties (model s) contents /\
        log t = (log s ++ pre ++ [Cout (writeModelProperties (model t))])%list /\
        files t = files s
  end.
Proof.
  intros Hin.
  assert (K : exists t pre,
            (if verbose s then report else ret tt) s = Done tt t /\
            inFile t = inFile s /\ inFileName t = inFileName s /\
            model t = model s /\ files t = files s /\
            log t = (log s ++ pre)%list).
  { destruct (verbose s).
    - unfold report, bind, get, cout, emit. simpl.
      do 2 eexists. split; [reflexivity|]. simpl.
      repeat split. rewrite <- !app_assoc. reflexivity.
    - exists s, []. rewrite app_nil_r. repeat split. }
  destruct K as (t & pre & E & F & N & M & G & L).
  assert (R := readProperties_command_file input t (eq_trans F Hin)).
  rewrite N, G in R.
  destruct (files s (inFileName s)) as [contents|]; unfold epilogue;
    rewrite (bind_done (get verbose) _ s (verbose s) s eq_refl);
    rewrite (bind_done _ _ _ _ _ E).
  - rewrite (bind_done _ _ _ _ _ R).
    unfold bind, get, cout, emit, ret. simpl.
    do 2 eexists. split; [reflexivity|]. simpl.
    rewrite M, L, <- app_assoc. auto.
  - rewrite (bind_exit _ _ _ _ _ R).
    do 2 eexists. split; [reflexivity|]. simpl.
    rewrite L, <- app_assoc. auto.
Qed.

Lemma epilogue_ignores_input input input' s :
  inFile s = true -> epilogue input s = epilogue input' s.
Proof.
  intros Hin.
  assert (K : exists t,
            (if verbose s then report else ret tt) s = Done tt t /\
            inFile t = inFile s).
  { destruct (verbose s).
    - destruct (report_returns s) as (t & E & _ & F & _). eauto.
    - eexists. split; [reflexivity|]. auto. }
  destruct K as (t & E & F).
  assert (R := readProperties_command_file input t (eq_trans F Hin)).
  assert (R' := readProperties_command_file input' t (eq_trans F Hin)).
  unfold epilogue.
  rewrite !(bind_done (get verbose) _ s (verbose s) s eq_refl).
  rewrite !(bind_done _ _ _ _ _ E).
  destruct (files t (inFileName t)).
  - now rewrite (bind_done _ _ _ _ _ R), (bind_done _ _ _ _ _ R').
  - now rewrite (bind_exit _ _ _ _ _ R), (bind_exit _ _ _ _ _ R').
Qed.

(** X13: with [-in] on an accepted command line, standard input plays no
    part in the run. *)
Theorem command_file_replaces_stdin fs args input input' :
  commandFile args <> None ->
  run fs args input = run fs args input'.
Proof.
  intros Hc. unfold run, main.
  destruct (processParameters args (initial fs)) as [[] s1|c t|t] eqn:E.
  - rewrite !(bind_done _ _ _ _ _ E).
    rewrite !(bind_done _ _ _ _ _ (reparameterize_run s1)).
    apply epilogue_ignores_input.
    destruct (processParameters_parsed _ _ _ E) as (_ & F & _).
    simpl in F.
    destruct (enforceRightHandSystem (model s1)) as [[|] m]; simpl;
      rewrite F; destruct (commandFile args); congruence.
  - now rewrite !(bind_exit _ _ _ _ _ E).
  - now rewrite !(bind_spin _ _ _ _ E).
Qed.

(** X14: the command file is opened last, after the orientation step and
    what it wrote: its contents are taken from the file system as it is
    then, and when it cannot be opened the run ends with status 1 and the
    message naming it, with reparameterized.g2 already written. *)
Theorem command_file_opened_last fs args input s1 f :
  processParameters args (initial fs) = Done tt s1 ->
  commandFile args = Some f ->
  let cm := enforceRightHandSystem (model s1) in
  let fs' := if fst cm then store fs reparameterized (writeSplines (snd cm))
             else fs in
  let r := run fs args input in
  (forall name, files (final r) name = fs' name) /\
  match fs' f with
  | None =>
      status r = 1%Z /\
      exists pre, log (final r) = (pre ++ [errOpening f])%list
  | Some contents =>
      r = Done 0%Z (final r) /\
      model (final r) = readModelProperties (snd cm) contents /\
      exists pre,
        log (final r) =
        (pre ++ [Cout (writeModelProperties (model (final r)))])%list
  end.
Proof.
  intros Hp Hc cm fs' r. subst cm fs' r. unfold run, main.
  rewrite (bind_done _ _ _ _ _ Hp).
  rewrite (bind_done _ _ _ _ _ (reparameterize_run s1)).
  destruct (processParameters_parsed _ _ _ Hp) as (_ & F & N & _).
  destruct (processParameters_done _ _ _ Hp) as (_ & G).
  simpl in F, N, G. rewrite Hc in F, N.
  match goal with |- context [epilogue input ?u] =>
    pose proof (epilogue_command_file input u) as K;
    assert (Ku : inFile u = true /\ inFileName u = f /\
                 model u = snd (enforceRightHandSystem (model s1)) /\
                 files u =
                 (if fst (enforceRightHandSystem (model s1))
                  then store fs reparameterized
                         (writeSplines (snd (enforceRightHandSystem (model s1))))
                  else fs))
      by (destruct (enforceRightHandSystem (model s1)) as [[|] m]; simpl;
          rewrite ?G; auto);
    destruct Ku as (Ki & Kn & Km & Kf);
    specialize (K Ki); rewrite Kn, Kf in K;
    set (u0 := u) in *
  end.
  destruct ((if fst (enforceRightHandSystem (model s1))
             then store fs reparameterized
                    (writeSplines (snd (enforceRightHandSystem (model s1))))
             else fs) f) as [contents|].
  - destruct K as (t & pre & E & M & L & H). rewrite E. simpl.
    split; [intros name; now rewrite H|].
    split; [reflexivity|]. split; [now rewrite M, Km|].
    exists (log u0 ++ pre)%list. now rewrite <- app_assoc.
  - destruct K as (t & pre & E & L & H). rewrite E. simpl.
    split; [intros name; now rewrite H|].
    split; [reflexivity|].
    exists (log u0 ++ pre)%list. now rewrite <- app_assoc.
Qed.

(** *** What a batch run prints *)

(** The texts written to standard output. *)
Fixpoint stdout (events : list Event) : list string :=
  match events with
  | [] => []
  | Cout text :: rest => text :: stdout rest
  | _ :: rest => stdout rest
  end.

Lemma stdout_app a b : stdout (a ++ b) = (stdout a ++ stdout b)%list.
Proof.
  induction a as [|e a IH]; simpl; auto.
  destruct e; simpl; now rewrite IH.
Qed.

Lemma epilogue_batch input s contents :
  verbose s = false -> inFile s = true ->
  files s (inFileName s) = Some contents ->
  exists t,
    epilogue input s = Done 0 t /\
    log t = (log s ++
             [Cout (writeModelProperties
                      (readModelProperties (model s) contents))])%list.
Proof.
  intros Hv Hi Hf.
  assert (R := readProperties_command_file input s Hi). rewrite Hf in R.
  unfold epilogue.
  rewrite (bind_done (get verbose) _ s (verbose s) s eq_refl). rewrite Hv.
  rewrite (bind_done (ret tt) _ s tt s eq_refl).
  rewrite (bind_done _ _ _ _ _ R).
  unfold bind, get, cout, emit, ret. simpl.
  eexists. split; reflexivity.
Qed.

(** X15: a run without [-v] and with a command file that can be opened
    writes to standard output the property listing of the model and
    nothing else, whether or not the orientation was fixed (the warning
    goes to the error stream). *)
Theorem batch_run_prints_listing fs args input s1 f contents :
  processParameters args (initial fs) = Done tt s1 ->
  flagV args = false ->
  commandFile args = Some f ->
  let cm := enforceRightHandSystem (model s1) in
  let fs' := if fst cm then store fs reparameterized (writeSplines (snd cm))
             else fs in
  fs' f = Some contents ->
  stdout (log (final (run fs args input))) =
  [writeModelProperties (readModelProperties (snd cm) contents)].
Proof.
  intros Hp Hv Hc cm fs' Hf. subst cm fs'. unfold run, main.
  rewrite (bind_done _ _ _ _ _ Hp).
  rewrite (bind_done _ _ _ _ _ (reparameterize_run s1)).
  destruct (processParameters_parsed _ _ _ Hp) as (V & F & N & _).
  destruct (processParameters_done _ _ _ Hp) as (L & G).
  simpl in V, F, N, L, G. rewrite Hv in V. rewrite Hc in F, N.
  destruct (enforceRightHandSystem (model s1)) as [[|] m];
    cbn [fst snd] in Hf;
    match goal with |- context [epilogue input ?u] =>
      destruct (epilogue_batch input u contents) as (t & E & K);
        [exact V | exact F | simpl; rewrite N, ?G; exact Hf |]
    end;
    rewrite E; simpl; rewrite K; simpl; rewrite L, stdout_app;
    reflexivity.
Qed.

End Program.

Arguments Done {Model A} _ _.
Arguments Exited {Model A} _ _.
Arguments Spins {Model A} _.

(** *** A stand-in for [SplineModel] to run the program on *)

(** It remembers one flag per patch read (every character of a patch
    stream is a patch, ['R'] a right-handed one, anything else a
    left-handed one) and the property records read. *)
Record Sketch := mkSketch { patches : list bool; props : list string }.

Definition patch_flag (c : ascii) : bool := Ascii.eqb c "R"%char.
Definition flag_char (b : bool) : ascii := if b then "R"%char else "L"%char.

#[local] Instance sketchOps : SplineModelOps Sketch := {
  newModel := mkSketch [] [];
  readSplines m stream :=
    mkSketch (patches m ++ map patch_flag (list_ascii_of_string stream))
             (props m);
  enforceRightHandSystem m :=
    (existsb negb (patches m), mkSketch (map (fun _ => true) (patches m)) (props m));
  writeSplines m := string_of_list_ascii (map flag_char (patches m));
  readModelProperties m stream := mkSketch (patches m) (props m ++ [stream]);
  writeModelProperties m := String.concat nl (props m);
  numbVertices m := 8 * Z.of_nat (List.length (patches m));
  numbLines m := 12 * Z.of_nat (List.length (patches m));
  numbNonDegenLines m := 12 * Z.of_nat (List.length (patches m));
  numbFaces m := 6 * Z.of_nat (List.length (patches m));
  numbNonDegenFaces m := 6 * Z.of_nat (List.length (patches m));
  numbVolumes m := Z.of_nat (List.length (patches m))
}.

(** Two patch files and a property file; nothing else can be opened. *)
Definition demo_fs : FileSystem :=
  fun name =>
    if name =? "cube.g2" then Some "R"
    else if name =? "left.g2" then Some "L"
    else if name =? "walls.prop" then Some "0 1 wall"
    else None.

Example run_help :
  run demo_fs ["-help"] [] =
  Exited 0 (mkState false false EmptyString newModel demo_fs [usage]).
Proof. reflexivity. Qed.

Example run_cube :
  status (run demo_fs ["cube.g2"; "-in"; "walls.prop"] []) = 0%Z /\
  log (final (run demo_fs ["cube.g2"; "-in"; "walls.prop"] [])) =
    [Cout "0 1 wall"].
Proof. split; reflexivity. Qed.

(** Standard input is [0 wall], a newline, and nothing more. *)
Example run_left :
  status (run demo_fs ["left.g2"] ["0 wall"; EmptyString]) = 0%Z /\
  log (final (run demo_fs ["left.g2"] ["0 wall"; EmptyString])) =
    [warning1; warning2; FileWrite "reparameterized.g2" "R";
     Cout "> "; Cout "> "; Cout ("0 wall" ++ nl)].
Proof. split; reflexivity. Qed.

(** Standard input is [0 wall] with no newline after it: the record is
    read, and the loop goes on asking. *)
Example run_unterminated :
  run demo_fs ["cube.g2"] ["0 wall"] =
  Spins (mkState false false EmptyString (mkSketch [true] ["0 wall"])
                 demo_fs [Cout "> "]).
Proof. reflexivity. Qed.

Example run_missing_props :
  run demo_fs ["cube.g2"; "-in"; "none.prop"] [] =
  Exited 1 (mkState false true "none.prop" (mkSketch [true] []) demo_fs
                    [errOpening "none.prop"]).
Proof. reflexivity. Qed.



Definition after_left : State (Model := Sketch) :=
  mkState false false EmptyString (mkSketch [false] []) demo_fs [].

Lemma reparameterized_written_iff_witness :
  processParameters ["left.g2"] (initial demo_fs) = Done tt after_left /\
  fst (enforceRightHandSystem (model after_left)) = true /\
  (exists post,
     log (final (run demo_fs ["left.g2"] [])) =
       ([warning1; warning2; FileWrite reparameterized "R"] ++ post)%list /\
     Forall is_text post) /\
  (forall name,
     files (final (run demo_fs ["left.g2"] [])) name =
     store demo_fs reparameterized "R" name).
Proof.
  split; [reflexivity|]. split; [reflexivity|].
  exact (proj1 (reparameterized_written_iff demo_fs ["left.g2"] [] after_left
                  eq_refl) eq_refl).
Defined.

(** *** The added properties on the stand-in model *)

Definition long_line : list string :=
  ["-v"; "cube.g2"; "-in"; "first.prop"; "left.g2"; "-in"; "walls.prop"].

Example long_line_read :
  inputFiles long_line = ["cube.g2"; "left.g2"] /\
  commandFile long_line = Some "walls.prop" /\
  flagV long_line = true.
Proof. repeat split. Qed.

Lemma processParameters_returns_witness :
  parsed long_line (initial demo_fs)
         (final (processParameters long_line (initial demo_fs))) /\
  model (final (processParameters long_line (initial demo_fs))) =
    mkSketch [true; false] [].
Proof.
  split; [|reflexivity].
  exact (proj1 (processParameters_returns long_line (initial demo_fs)
                  (final (processParameters long_line (initial demo_fs)))
                  eq_refl)).
Defined.

Lemma processArgs_left_to_right_witness :
  processArgs (["-v"; "cube.g2"] ++ ["-in"]) false (initial demo_fs) =
  processArgs ["-in"] true
    (mkState true false EmptyString (mkSketch [true] []) demo_fs []).
Proof.
  exact (processArgs_left_to_right ["-v"; "cube.g2"] ["-in"] false
           (initial demo_fs) true _ eq_refl).
Defined.

Lemma help_wins_witness :
  exists t,
    main (["cube.g2"] ++ "-help" :: ["missing.g2"; "-in"]) []
         (initial demo_fs) = Exited 0 t /\
    log t = (log (initial demo_fs) ++ [usage])%list /\
    files t = files (initial demo_fs).
Proof.
  exact (help_wins ["cube.g2"] ["missing.g2"; "-in"] [] true
           (initial demo_fs) _ eq_refl).
Defined.

Lemma interactive_stops_at_empty_line_witness :
  interactive (["0 wall"; "1 2 inlet"] ++ EmptyString :: ["3 never read"])
              (initial demo_fs) =
  Done tt (prompted (["0 wall"; "1 2 inlet"] ++ [EmptyString])
                    (initial demo_fs)).
Proof.
  apply (interactive_stops_at_empty_line ["0 wall"; "1 2 inlet"]
           ["3 never read"] (initial demo_fs)).
  repeat constructor; discriminate.
Defined.

Lemma main_status_witness :
  (exists t, main ["cube.g2"] ["0 wall"] (initial demo_fs) = Spins t) /\
  (exists pre d,
     log (final (main ["-v"; "-in"] [] (initial demo_fs))) =
       (pre ++ [d])%list /\
     diagnostic d).
Proof.
  split.
  - apply (proj2 (proj1 (main_status ["cube.g2"] ["0 wall"]
                           (initial demo_fs)))).
    split.
    + eexists. split; reflexivity.
    + split; [discriminate | repeat constructor; discriminate].
  - exact (proj2 (proj2 (main_status ["-v"; "-in"] [] (initial demo_fs)))
             eq_refl).
Defined.

Lemma command_file_replaces_stdin_witness :
  run demo_fs ["cube.g2"; "-in"; "walls.prop"] [] =
  run demo_fs ["cube.g2"; "-in"; "walls.prop"] ["9 ignored"].
Proof.
  apply (command_file_replaces_stdin demo_fs
           ["cube.g2"; "-in"; "walls.prop"] [] ["9 ignored"]).
  discriminate.
Defined.

(** The rewritten patches are read back as property records when the
    command file is the file the program writes; and they have been
    written when the command file cannot be opened. *)
Lemma command_file_opened_last_witness :
  (model (final (run demo_fs ["left.g2"; "-in"; "reparameterized.g2"] [])) =
     mkSketch [true] ["R"]) /\
  (status (run demo_fs ["left.g2"; "-in"; "none.prop"] []) = 1%Z /\
   files (final (run demo_fs ["left.g2"; "-in"; "none.prop"] []))
         "reparameterized.g2" = Some "R").
Proof.
  split.
  - pose proof (command_file_opened_last demo_fs
                  ["left.g2"; "-in"; "reparameterized.g2"] []
                  (mkState false true "reparameterized.g2"
                           (mkSketch [false] []) demo_fs [])
                  "reparameterized.g2" eq_refl eq_refl) as H.
    cbv zeta in H. destruct H as (_ & H).
    exact (proj1 (proj2 H)).
  - pose proof (command_file_opened_last demo_fs
                  ["left.g2"; "-in"; "none.prop"] []
                  (mkState false true "none.prop"
                           (mkSketch [false] []) demo_fs [])
                  "none.prop" eq_refl eq_refl) as H.
    cbv zeta in H. destruct H as (Hf & H).
    split; [exact (proj1 H) | exact (Hf "reparameterized.g2")].
Defined.

Lemma batch_run_prints_listing_witness :
  stdout (log (final (run demo_fs ["left.g2"; "-in"; "walls.prop"]
                          ["9 ignored"]))) =
  ["0 1 wall"].
Proof.
  exact (batch_run_prints_listing demo_fs ["left.g2"; "-in"; "walls.prop"]
           ["9 ignored"]
           (mkState false true "walls.prop" (mkSketch [false] []) demo_fs [])
           "walls.prop" "0 1 wall" eq_refl eq_refl eq_refl eq_refl).
Defined.

End Driver.

(* ===================================================================== *)
(** ** SplineModel::enforceRightHandSystem *)
(* ===================================================================== *)

Module RightHand.

(** Modelled from the spec: the two services of the Geometry Kernel that
    [enforceRightHandSystem] consumes (the kernel is GoTools, outside the
    repository): the sign of a patch's parametric Jacobian at an interior
    sample point, and the mutation that reverses one parametric
    direction of a patch. *)
Class GeometryKernel (Patch : Type) := {
  jacobianSign : Patch -> Z;
  reverseParameterDirection : Patch -> Patch
}.

Section Enforce.
Context {Patch : Type} {kernel : GeometryKernel Patch}.

(** Modelled from the spec: the part of [SplineModel] (SplineModel.h) that
    the orientation fix-up touches, the patch list and the
    volumetric/surface classification; SplineModel.cpp is missing. *)
Record SplineModel := mkModel {
  volumetric_model : bool;
  spline_volumes : list Patch
}.

(** Modelled from the spec: the treatment of one patch by
    [SplineModel::enforceRightHandSystem] (SplineModel.cpp is missing):
    "any patch with negative sign has one parametric direction
    reversed".  The flag tells whether the patch changed. *)
Definition fixPatch (p : Patch) : bool * Patch :=
  if jacobianSign p <? 0 then (true, reverseParameterDirection p)
  else (false, p).

(** Modelled from the spec: [SplineModel::enforceRightHandSystem]
    (SplineModel.cpp is missing).  "For volumetric models, queries each
    patch's parametric Jacobian sign ...; any patch with negative sign has
    one parametric direction reversed ... Returns whether any patch
    changed." *)
Definition enforceRightHandSystem (m : SplineModel) : bool * SplineModel :=
  if volumetric_model m then
    let fixed := map fixPatch (spline_volumes m) in
    (existsb fst fixed, mkModel true (map snd fixed))
  else (false, m).

(** What the kernel guarantees about its two services: reversing one
    parametric direction negates the Jacobian. *)
Definition reversal_negates : Prop :=
  forall p, jacobianSign (reverseParameterDirection p) = - jacobianSign p.

Lemma fixPatch_fixed p :
  reversal_negates -> fixPatch (snd (fixPatch p)) = (false, snd (fixPatch p)).
Proof.
  intros Hk. unfold fixPatch at 2 3.
  destruct (Z.ltb_spec (jacobianSign p) 0) as [Hn|Hn]; simpl; unfold fixPatch.
  - rewrite Hk. destruct (Z.ltb_spec (- jacobianSign p) 0); [lia|reflexivity].
  - destruct (Z.ltb_spec (jacobianSign p) 0); [lia|reflexivity].
Qed.

Lemma fix_all_fixed ps :
  reversal_negates ->
  map fixPatch (map snd (map fixPatch ps)) =
  map (fun p => (false, p)) (map snd (map fixPatch ps)).
Proof.
  intros Hk. induction ps as [|p ps IH]; simpl; [reflexivity|].
  now rewrite fixPatch_fixed, IH.
Qed.

Lemma existsb_fst_false (ps : list Patch) :
  existsb fst (map (fun p => (false, p)) ps) = false.
Proof. induction ps; simpl; auto. Qed.

Lemma snd_pair_false (ps : list Patch) :
  map snd (map (fun p => (false, p)) ps) = ps.
Proof. induction ps; simpl; congruence. Qed.

(** C6: a second consecutive call changes no patch and returns [false];
    the first call returns [true] on a volumetric model with a patch of
    negative Jacobian. *)
Theorem enforceRightHandSystem_idempotent m :
  reversal_negates ->
  let first := enforceRightHandSystem m in
  let second := enforceRightHandSystem (snd first) in
  fst second = false /\
  snd second = snd first /\
  (volumetric_model m = true ->
   (exists p, In p (spline_volumes m) /\ jacobianSign p < 0) ->
   fst first = true).
Proof.
  intros Hk. unfold enforceRightHandSystem.
  destruct (volumetric_model m) eqn:Ev; simpl.
  - rewrite (fix_all_fixed _ Hk), existsb_fst_false, snd_pair_false.
    split; [reflexivity|]. split; [reflexivity|].
    intros _ (p & Hin & Hneg). apply existsb_exists.
    exists (fixPatch p). split; [now apply in_map|].
    unfold fixPatch. destruct (Z.ltb_spec (jacobianSign p) 0); [reflexivity|lia].
  - rewrite Ev. simpl. split; [reflexivity|]. split; [reflexivity|].
    discriminate.
Qed.

End Enforce.

(** *** A kernel to run the model on: trilinear hexahedra *)

Record Vec := mkVec { vx : Z; vy : Z; vz : Z }.

Definition vsub (a b : Vec) : Vec :=
  mkVec (vx a - vx b) (vy a - vy b) (vz a - vz b).
Definition vadd (a b : Vec) : Vec :=
  mkVec (vx a + vx b) (vy a + vy b) (vz a + vz b).
Definition cross (a b : Vec) : Vec :=
  mkVec (vy a * vz b - vz a * vy b)
        (vz a * vx b - vx a * vz b)
        (vx a * vy b - vy a * vx b).
Definition dot (a b : Vec) : Z := vx a * vx b + vy a * vy b + vz a * vz b.

(** A 2x2x2 grid of control points, first parameter running fastest. *)
Record Hexa := mkHexa {
  c000 : Vec; c100 : Vec; c010 : Vec; c110 : Vec;
  c001 : Vec; c101 : Vec; c011 : Vec; c111 : Vec
}.

(** The three parametric derivatives at the midpoint of the parameter
    domain, each scaled by 4. *)
Definition du (h : Hexa) : Vec :=
  vadd (vadd (vsub (c100 h) (c000 h)) (vsub (c110 h) (c010 h)))
       (vadd (vsub (c101 h) (c001 h)) (vsub (c111 h) (c011 h))).
Definition dv (h : Hexa) : Vec :=
  vadd (vadd (vsub (c010 h) (c000 h)) (vsub (c110 h) (c100 h)))
       (vadd (vsub (c011 h) (c001 h)) (vsub (c111 h) (c101 h))).
Definition dw (h : Hexa) : Vec :=
  vadd (vadd (vsub (c001 h) (c000 h)) (vsub (c101 h) (c100 h)))
       (vadd (vsub (c011 h) (c010 h)) (vsub (c111 h) (c110 h))).

(** [(du x dv) . dw], 64 times the Jacobian at the midpoint. *)
Definition jacobian64 (h : Hexa) : Z := dot (cross (du h) (dv h)) (dw h).

(** Reversing the third parametric direction flips the control-point
    order along it. *)
Definition reverse_w (h : Hexa) : Hexa :=
  mkHexa (c001 h) (c101 h) (c011 h) (c111 h)
         (c000 h) (c100 h) (c010 h) (c110 h).

#[local] Instance hexaKernel : GeometryKernel Hexa := {
  jacobianSign h := Z.sgn (jacobian64 h);
  reverseParameterDirection := reverse_w
}.

Lemma hexa_reversal_negates : reversal_negates (Patch := Hexa).
Proof.
  intros h. simpl. rewrite <- Z.sgn_opp. f_equal.
  destruct h as [[] [] [] [] [] [] [] []].
  unfold jacobian64, du, dv, dw, reverse_w, dot, cross, vadd, vsub. simpl.
  ring.
Qed.

Definition v3 (x y z : Z) : Vec := mkVec x y z.

(** The unit cube, and its mirror image (left-handed). *)
Definition cube : Hexa :=
  mkHexa (v3 0 0 0) (v3 1 0 0) (v3 0 1 0) (v3 1 1 0)
         (v3 0 0 1) (v3 1 0 1) (v3 0 1 1) (v3 1 1 1).
Definition mirrored : Hexa :=
  mkHexa (v3 0 0 1) (v3 1 0 1) (v3 0 1 1) (v3 1 1 1)
         (v3 0 0 0) (v3 1 0 0) (v3 0 1 0) (v3 1 1 0).

Example mirrored_negative : jacobianSign mirrored = -1.
Proof. reflexivity. Qed.

Definition left_handed_model : SplineModel := mkModel true [mirrored].

Example first_call :
  enforceRightHandSystem left_handed_model = (true, mkModel true [cube]).
Proof. reflexivity. Qed.

Example second_call :
  enforceRightHandSystem (mkModel true [cube]) = (false, mkModel true [cube]).
Proof. reflexivity. Qed.

Lemma enforceRightHandSystem_idempotent_witness :
  let first := enforceRightHandSystem left_handed_model in
  let second := enforceRightHandSystem (snd first) in
  fst second = false /\ snd second = snd first /\ fst first = true.
Proof.
  pose proof (enforceRightHandSystem_idempotent left_handed_model
                hexa_reversal_negates) as H.
  cbv zeta in *. destruct H as (H1 & H2 & H3).
  split; [exact H1|]. split; [exact H2|].
  apply H3; [reflexivity|].
  exists mirrored. split; [left; reflexivity | reflexivity].
Defined.

End RightHand.

(* ===================================================================== *)
(** ** SplineModel::generateGlobalNumbers *)
(* ===================================================================== *)

Module Numbering.

(** *** The topology the numbering walks over *)

(** Modelled from the spec: a canonical Line of the TopologySet
    (primitives.h is missing): its number of control points, the two end
    points included, and the flag set when its bounding vertices
    coincide. *)
Record Line := mkLine { line_points : nat; line_degen : bool }.

(** Modelled from the spec: a canonical Face of the TopologySet
    (primitives.h is missing): its grid of control points, boundary
    included, and the flag set when it is collapsed. *)
Record Face := mkFace {
  face_points_u : nat;
  face_points_v : nat;
  face_degen : bool
}.

(** Modelled from the spec: what a patch stores for one of its edge slots
    (primitives.h is missing): the canonical line, and whether the patch
    walks it against the canonical line's stored control-point order. *)
Record LineRef := mkLineRef { line_id : nat; line_reversed : bool }.

(** Modelled from the spec: what a patch stores for one of its face slots
    (primitives.h is missing): the canonical face and how the local grid
    lies on the canonical one; the spec's "direction reversal and axis
    swap".  [uv_flip]: the first local direction runs along the second
    canonical one; [i_reverse], [j_reverse]: the first, second local
    direction runs against the canonical direction it follows. *)
Record FaceRef := mkFaceRef {
  face_id : nat;
  uv_flip : bool;
  i_reverse : bool;
  j_reverse : bool
}.

(** Modelled from the spec: a Volume, "one patch's full primitive set - 8
    Vertices, 12 Lines, 6 Faces, referencing canonical instances"
    (primitives.h is missing), with its control points per direction. *)
Record Volume := mkVolume {
  vol_points : nat * nat * nat;
  vol_vertex : list nat;
  vol_line : list LineRef;
  vol_face : list FaceRef
}.

(** Modelled from the spec: a patch of a surface model (4 vertices, 4
    edges, and the patch itself as a canonical face). *)
Record Surface := mkSurface {
  surf_vertex : list nat;
  surf_line : list LineRef;
  surf_face : nat
}.

(** Modelled from the spec: the canonical collections of [TopologySet]
    (TopologySet.h; TopologySet.cpp is missing), each in its iteration
    order.  A canonical vertex is named by its position in [vertex_], of
    which only the size matters here.  A model is surface-only or
    volume-only, so one of [volume_], [surface_] is empty. *)
Record TopologySet := mkTopology {
  numbVertices : nat;
  line_ : list Line;
  face_ : list Face;
  volume_ : list Volume;
  surface_ : list Surface
}.

(** *** Per-patch numbering records (SplineModel.h) *)

(** [struct surfGlobNumber] *)
Record surfGlobNumber := mkSurfGlobNumber {
  s_vertex : list Z;
  s_edge : list Z;
  s_edge_incr : list Z;
  s_surface : Z
}.

(** [struct volGlobNumber] *)
Record volGlobNumber := mkVolGlobNumber {
  vertex : list Z;
  edge : list Z;
  edge_incr : list Z;
  surface : list Z;
  surface_incr_i : list Z;
  surface_incr_j : list Z;
  volume : Z
}.

(** *** Phase 1: index assignment *)

(** Modelled from the spec: the points of an entity that are numbered
    with the entity itself: "interior-point count, i.e. total points
    minus 2 endpoints", and none for a degenerate entity. *)
Definition line_interior (l : Line) : nat :=
  if line_degen l then 0%nat else (line_points l - 2)%nat.

(** Modelled from the spec: the interior grid of a face, per direction
    and in all ("interior grid points"); none for a degenerate face. *)
Definition face_interior_u (f : Face) : nat :=
  if face_degen f then 0%nat else (face_points_u f - 2)%nat.

Definition face_interior_v (f : Face) : nat :=
  if face_degen f then 0%nat else (face_points_v f - 2)%nat.

Definition face_interior (f : Face) : nat :=
  (face_interior_u f * face_interior_v f)%nat.

(** Modelled from the spec: "each Volume's interior points". *)
Definition volume_interior (v : Volume) : nat :=
  let '(n1, n2, n3) := vol_points v in
  ((n1 - 2) * (n2 - 2) * (n3 - 2))%nat.

(** Modelled from the spec: "one contiguous index range per [entity]":
    the first index of each range when the ranges are handed out one
    after the other from [next] on. *)
Fixpoint allot (counts : list nat) (next : Z) : list Z :=
  match counts with
  | [] => []
  | c :: rest => next :: allot rest (next + Z.of_nat c)
  end.

(** Modelled from the spec: what the index assignment pass leaves with
    the canonical entities (primitives.h is missing): the first index of
    the vertices and of every line, face and volume. *)
Record Enumeration := mkEnumeration {
  vertex_glob : Z;
  line_glob : list Z;
  face_glob : list Z;
  volume_glob : list Z
}.

(** Modelled from the spec: the index assignment pass of
    [generateGlobalNumbers] (SplineModel.cpp is missing), "in fixed order
    - all canonical Vertices (one index each), then all non-degenerate
    canonical Lines ..., then all non-degenerate canonical Faces ...,
    then, for volumetric models, each Volume's interior points", counting
    from [iStart]. *)
Definition assignIndices (iStart : Z) (t : TopologySet) : Enumeration :=
  let lines_from := iStart + Z.of_nat (numbVertices t) in
  let faces_from :=
    lines_from + Z.of_nat (list_sum (map line_interior (line_ t))) in
  let volumes_from :=
    faces_from + Z.of_nat (list_sum (map face_interior (face_ t))) in
  mkEnumeration iStart
    (allot (map line_interior (line_ t)) lines_from)
    (allot (map face_interior (face_ t)) faces_from)
    (allot (map volume_interior (volume_ t)) volumes_from).

(** The canonical entity behind an identifier. *)
Definition the_line (t : TopologySet) (id : nat) : Line :=
  nth id (line_ t) (mkLine 0 true).

Definition the_face (t : TopologySet) (id : nat) : Face :=
  nth id (face_ t) (mkFace 0 0 true).

(** Modelled from the spec: the index phase 1 gives to a canonical
    control point: vertex [id] ("one index each"); the interior point at
    position [u] of line [id], in its stored order ("one contiguous
    index range per line"); the interior point at [(u, v)] of the grid of
    face [id], first direction running fastest. *)
Definition vertex_index (e : Enumeration) (id : nat) : Z :=
  vertex_glob e + Z.of_nat id.

Definition line_index (e : Enumeration) (id u : nat) : Z :=
  nth id (line_glob e) 0 + Z.of_nat u.

Definition face_index (e : Enumeration) (t : TopologySet) (id u v : nat) : Z :=
  nth id (face_glob e) 0 + Z.of_nat u +
  Z.of_nat (face_interior_u (the_face t id)) * Z.of_nat v.

(** *** Phase 2: the affine map of every patch *)

(** Modelled from the spec: start and increment of an edge slot: "if they
    agree, increment is +1 from the canonical start; if reversed,
    increment is -1 and start is the canonical entity's far end". *)
Definition edge_entry (e : Enumeration) (t : TopologySet) (r : LineRef) : Z * Z :=
  let start := nth (line_id r) (line_glob e) 0 in
  let count := Z.of_nat (line_interior (the_line t (line_id r))) in
  if line_reversed r then (start + (count - 1), -1) else (start, 1).

(** Modelled from the spec: start and the two increments of a face slot,
    the same rule per direction of the grid: a step in a local direction
    moves by one along the canonical first direction, by a whole row along
    the second, with a minus sign and the far end as start where the local
    direction is reversed. *)
Definition face_entry (e : Enumeration) (t : TopologySet) (r : FaceRef)
  : Z * Z * Z :=
  let start := nth (face_id r) (face_glob e) 0 in
  let c1 := Z.of_nat (face_interior_u (the_face t (face_id r))) in
  let c2 := Z.of_nat (face_interior_v (the_face t (face_id r))) in
  let along_u (rev : bool) := if rev then (c1 - 1, -1) else (0, 1) in
  let along_v (rev : bool) := if rev then (c1 * (c2 - 1), - c1) else (0, c1) in
  let '(off_i, incr_i) :=
    if uv_flip r then along_v (i_reverse r) else along_u (i_reverse r) in
  let '(off_j, incr_j) :=
    if uv_flip r then along_u (j_reverse r) else along_v (j_reverse r) in
  (start + off_i + off_j, incr_i, incr_j).

(** Modelled from the spec: the numbering record of one volume. *)
Definition number_volume (e : Enumeration) (t : TopologySet)
  (v : Volume) (start : Z) : volGlobNumber :=
  mkVolGlobNumber
    (map (vertex_index e) (vol_vertex v))
    (map (fun r => fst (edge_entry e t r)) (vol_line v))
    (map (fun r => snd (edge_entry e t r)) (vol_line v))
    (map (fun r => fst (fst (face_entry e t r))) (vol_face v))
    (map (fun r => snd (fst (face_entry e t r))) (vol_face v))
    (map (fun r => snd (face_entry e t r)) (vol_face v))
    start.

(** Modelled from the spec: the numbering record of one surface patch. *)
Definition number_surface (e : Enumeration) (t : TopologySet)
  (s : Surface) : surfGlobNumber :=
  mkSurfGlobNumber
    (map (vertex_index e) (surf_vertex s))
    (map (fun r => fst (edge_entry e t r)) (surf_line s))
    (map (fun r => snd (edge_entry e t r)) (surf_line s))
    (nth (surf_face s) (face_glob e) 0).

(** Modelled from the spec: one record per volume, in patch order, each
    with the start of its own interior range. *)
Fixpoint number_volumes (e : Enumeration) (t : TopologySet)
  (vs : list Volume) (starts : list Z) : list volGlobNumber :=
  match vs, starts with
  | v :: vs', s :: starts' => number_volume e t v s :: number_volumes e t vs' starts'
  | _, _ => []
  end.

(** Modelled from the spec: [generateGlobalNumbersPETSc] without the mixed
    mode (SplineModel.cpp is missing): both phases, counting from
    [iStart]; the result is what the model keeps in [vl2g] and [sl2g]. *)
Definition generateGlobalNumbersFrom (iStart : Z) (t : TopologySet)
  : list volGlobNumber * list surfGlobNumber :=
  let e := assignIndices iStart t in
  (number_volumes e t (volume_ t) (volume_glob e),
   map (number_surface e t) (surface_ t)).

(** Modelled from the spec: [SplineModel::generateGlobalNumbers]
    (SplineModel.cpp is missing). *)
Definition generateGlobalNumbers (t : TopologySet)
  : list volGlobNumber * list surfGlobNumber :=
  generateGlobalNumbersFrom 0 t.

(** *** Evaluating a record *)

(** Modelled from the spec: [SplineModel::getGlobalNumber]
    (SplineModel.cpp is missing) on the points of one entity, "global =
    start + sum of increment times local coordinate": the corner in slot
    [c]; the [k]-th interior point, in the patch's own direction, of the
    edge in slot [s]; the interior point [(i, j)] of the face in slot
    [f]. *)
Definition affine1 (starts incrs : list Z) (s k : nat) : option Z :=
  match nth_error starts s, nth_error incrs s with
  | Some start, Some incr => Some (start + incr * Z.of_nat k)
  | _, _ => None
  end.

Definition vertexNumber (g : volGlobNumber) (c : nat) : option Z :=
  nth_error (vertex g) c.

Definition edgeNumber (g : volGlobNumber) (s k : nat) : option Z :=
  affine1 (edge g) (edge_incr g) s k.

Definition faceNumber (g : volGlobNumber) (f i j : nat) : option Z :=
  match nth_error (surface g) f, nth_error (surface_incr_i g) f,
        nth_error (surface_incr_j g) f with
  | Some start, Some incr_i, Some incr_j =>
      Some (start + incr_i * Z.of_nat i + incr_j * Z.of_nat j)
  | _, _, _ => None
  end.

Definition surfVertexNumber (g : surfGlobNumber) (c : nat) : option Z :=
  nth_error (s_vertex g) c.

Definition surfEdgeNumber (g : surfGlobNumber) (s k : nat) : option Z :=
  affine1 (s_edge g) (s_edge_incr g) s k.

(** *** Which control point a local position denotes *)

(** Modelled from the spec: the control point of the shared entity that
    lies under a local position: the canonical line and the position in
    its stored order, for the [k]-th interior point of an edge slot in
    the patch's own direction. *)
Definition edge_point (t : TopologySet) (r : LineRef) (k : nat)
  : option (nat * nat) :=
  let count := line_interior (the_line t (line_id r)) in
  if (k <? count)%nat then
    Some (line_id r, if line_reversed r then (count - 1 - k)%nat else k)
  else None.

(** Modelled from the spec: the interior extent of a face slot in the
    patch's own two directions (swapped under an axis swap). *)
Definition face_extent (t : TopologySet) (r : FaceRef) : nat * nat :=
  let c1 := face_interior_u (the_face t (face_id r)) in
  let c2 := face_interior_v (the_face t (face_id r)) in
  if uv_flip r then (c2, c1) else (c1, c2).

(** Modelled from the spec: the same for the interior point [(i, j)] of a
    face slot: the canonical face and the position in its stored grid. *)
Definition face_point (t : TopologySet) (r : FaceRef) (i j : nat)
  : option (nat * (nat * nat)) :=
  let '(m1, m2) := face_extent t r in
  if ((i <? m1) && (j <? m2))%nat then
    let a := if i_reverse r then (m1 - 1 - i)%nat else i in
    let b := if j_reverse r then (m2 - 1 - j)%nat else j in
    Some (face_id r, if uv_flip r then (b, a) else (a, b))
  else None.

(** *** The records agree with phase 1 *)

Lemma edge_entry_point e t r k id u :
  edge_point t r k = Some (id, u) ->
  fst (edge_entry e t r) + snd (edge_entry e t r) * Z.of_nat k =
  line_index e id u.
Proof.
  unfold edge_point, edge_entry, line_index.
  destruct (Nat.ltb_spec k (line_interior (the_line t (line_id r))));
    [|discriminate].
  intros E. inversion E; subst; clear E.
  destruct (line_reversed r); cbn [fst snd]; lia.
Qed.

Lemma face_entry_point e t r i j id u v :
  face_point t r i j = Some (id, (u, v)) ->
  fst (fst (face_entry e t r)) + snd (fst (face_entry e t r)) * Z.of_nat i +
  snd (face_entry e t r) * Z.of_nat j =
  face_index e t id u v.
Proof.
  unfold face_point, face_extent, face_entry, face_index.
  set (c1 := face_interior_u (the_face t (face_id r))).
  set (c2 := face_interior_v (the_face t (face_id r))).
  destruct (uv_flip r), (i_reverse r), (j_reverse r); cbn [fst snd];
    match goal with
    | |- context [(i <? ?m1)%nat] =>
        destruct (Nat.ltb_spec i m1); [|discriminate]
    end;
    match goal with
    | |- context [(j <? ?m2)%nat] =>
        destruct (Nat.ltb_spec j m2); [|discriminate]
    end;
    cbn [andb]; intros E; inversion E; subst; clear E;
    rewrite ?Nat2Z.inj_sub by lia; cbn [Z.of_nat Pos.of_succ_nat];
    subst c1 c2; ring.
Qed.



(** *** Patches of either kind, seen alike *)

(** The references a patch holds, slot by slot. *)
Record PatchView := mkView {
  pv_vertex : list nat;
  pv_line : list LineRef;
  pv_face : list FaceRef
}.

Definition volume_view (v : Volume) : PatchView :=
  mkView (vol_vertex v) (vol_line v) (vol_face v).

(** A surface patch shares vertices and lines only. *)
Definition surface_view (s : Surface) : PatchView :=
  mkView (surf_vertex s) (surf_line s) [].

Definition patches (t : TopologySet) : list PatchView :=
  (map volume_view (volume_ t) ++ map surface_view (surface_ t))%list.

(** A numbering record of either kind. *)
Inductive GlobNumber :=
| VolNumber (g : volGlobNumber)
| SurfNumber (g : surfGlobNumber).

Definition records (n : list volGlobNumber * list surfGlobNumber)
  : list GlobNumber :=
  (map VolNumber (fst n) ++ map SurfNumber (snd n))%list.

Definition cornerNumber (g : GlobNumber) (c : nat) : option Z :=
  match g with
  | VolNumber g => vertexNumber g c
  | SurfNumber g => surfVertexNumber g c
  end.

Definition edgePointNumber (g : GlobNumber) (s k : nat) : option Z :=
  match g with
  | VolNumber g => edgeNumber g s k
  | SurfNumber g => surfEdgeNumber g s k
  end.

Definition facePointNumber (g : GlobNumber) (f i j : nat) : option Z :=
  match g with
  | VolNumber g => faceNumber g f i j
  | SurfNumber _ => None
  end.

(** The record [N] holds, slot by slot, the entries of the references of
    [P]. *)
Definition record_of (e : Enumeration) (t : TopologySet)
  (P : PatchView) (N : GlobNumber) : Prop :=
  (forall c id, nth_error (pv_vertex P) c = Some id ->
     cornerNumber N c = Some (vertex_index e id)) /\
  (forall s r k, nth_error (pv_line P) s = Some r ->
     edgePointNumber N s k =
     Some (fst (edge_entry e t r) + snd (edge_entry e t r) * Z.of_nat k)) /\
  (forall f r i j, nth_error (pv_face P) f = Some r ->
     facePointNumber N f i j =
     Some (fst (fst (face_entry e t r)) +
           snd (fst (face_entry e t r)) * Z.of_nat i +
           snd (face_entry e t r) * Z.of_nat j)).

Lemma affine1_map {A} (f : A -> Z * Z) (l : list A) s k r :
  nth_error l s = Some r ->
  affine1 (map (fun x => fst (f x)) l) (map (fun x => snd (f x)) l) s k =
  Some (fst (f r) + snd (f r) * Z.of_nat k).
Proof.
  intros H. unfold affine1. rewrite !nth_error_map, H. reflexivity.
Qed.

Lemma record_of_volume e t v start :
  record_of e t (volume_view v) (VolNumber (number_volume e t v start)).
Proof.
  unfold record_of. simpl. repeat split.
  - intros c id H. unfold vertexNumber. simpl.
    now rewrite nth_error_map, H.
  - intros s r k H. unfold edgeNumber. simpl.
    now apply (affine1_map (edge_entry e t)).
  - intros f r i j H. unfold faceNumber. simpl.
    now rewrite !nth_error_map, H.
Qed.

Lemma record_of_surface e t s :
  record_of e t (surface_view s) (SurfNumber (number_surface e t s)).
Proof.
  unfold record_of. simpl. repeat split.
  - intros c id H. unfold surfVertexNumber. simpl.
    now rewrite nth_error_map, H.
  - intros s0 r k H. unfold surfEdgeNumber. simpl.
    now apply (affine1_map (edge_entry e t)).
  - intros f r i j H. destruct f; discriminate H.
Qed.

Lemma allot_length counts next :
  List.length (allot counts next) = List.length counts.
Proof.
  revert next. induction counts as [|c r IH]; intros next; simpl; auto.
Qed.

Lemma number_volumes_nth e t vs starts a :
  List.length starts = List.length vs ->
  nth_error (number_volumes e t vs starts) a =
  match nth_error vs a, nth_error starts a with
  | Some v, Some s => Some (number_volume e t v s)
  | _, _ => None
  end.
Proof.
  revert starts a. induction vs as [|v vs IH]; intros [|s starts] [|a] H;
    simpl in *; try discriminate; auto.
Qed.

Lemma number_volumes_length e t vs starts :
  List.length starts = List.length vs ->
  List.length (number_volumes e t vs starts) = List.length vs.
Proof.
  revert starts. induction vs as [|v vs IH]; intros [|s starts] H;
    simpl in *; try discriminate; auto.
Qed.

(** The record at a position of the generated lists belongs to the patch
    at the same position. *)
Lemma records_match iStart t a P N :
  nth_error (patches t) a = Some P ->
  nth_error (records (generateGlobalNumbersFrom iStart t)) a = Some N ->
  record_of (assignIndices iStart t) t P N.
Proof.
  unfold patches, records, generateGlobalNumbersFrom. cbn [fst snd].
  set (e := assignIndices iStart t).
  assert (Hlen : List.length (volume_glob e) = List.length (volume_ t)).
  { unfold e, assignIndices. cbn [volume_glob].
    now rewrite allot_length, length_map. }
  destruct (Nat.lt_ge_cases a (List.length (volume_ t))) as [Hlt|Hge].
  - rewrite !nth_error_app1
      by (rewrite length_map, ?number_volumes_length; auto).
    rewrite !nth_error_map, number_volumes_nth by auto.
    destruct (nth_error (volume_ t) a) as [v|]; [|discriminate].
    destruct (nth_error (volume_glob e) a) as [s|]; [|discriminate].
    cbn [option_map]. intros HP HN. inversion HP. inversion HN.
    apply record_of_volume.
  - rewrite !nth_error_app2
      by (rewrite length_map, ?number_volumes_length; auto).
    rewrite !length_map, number_volumes_length by auto.
    rewrite !nth_error_map.
    destruct (nth_error (surface_ t) _) as [s|]; [|discriminate].
    cbn [option_map]. intros HP HN. inversion HP. inversion HN.
    apply record_of_surface.
Qed.

(** *** Consistency across shared entities *)


(** *** The index set *)

(** [count] consecutive indices from [start] on. *)
Definition range (start : Z) (count : nat) : list Z :=
  map (fun k => start + Z.of_nat k) (seq 0 count).

Definition the_volume (t : TopologySet) (id : nat) : Volume :=
  nth id (volume_ t) (mkVolume (0, 0, 0)%nat [] [] []).

(** The indices phase 1 gives out, in the order it gives them out: the
    canonical vertices, then line by line the interior points in stored
    order, then face by face the interior grid row by row, then volume by
    volume the range of its interior points. *)
Definition vertex_indices (e : Enumeration) (t : TopologySet) : list Z :=
  map (vertex_index e) (seq 0 (numbVertices t)).

Definition line_indices (e : Enumeration) (t : TopologySet) : list Z :=
  flat_map
    (fun id => map (line_index e id) (seq 0 (line_interior (the_line t id))))
    (seq 0 (List.length (line_ t))).

Definition face_indices (e : Enumeration) (t : TopologySet) : list Z :=
  flat_map
    (fun id =>
       flat_map
         (fun v => map (fun u => face_index e t id u v)
                       (seq 0 (face_interior_u (the_face t id))))
         (seq 0 (face_interior_v (the_face t id))))
    (seq 0 (List.length (face_ t))).

Definition volume_indices (e : Enumeration) (t : TopologySet) : list Z :=
  flat_map
    (fun id => range (nth id (volume_glob e) 0)
                     (volume_interior (the_volume t id)))
    (seq 0 (List.length (volume_ t))).

Definition assigned (iStart : Z) (t : TopologySet) : list Z :=
  let e := assignIndices iStart t in
  (vertex_indices e t ++ line_indices e t ++ face_indices e t ++
   volume_indices e t)%list.

(** The count of the spec: canonical vertices plus the interior points of
    the non-degenerate lines, of the non-degenerate faces, and of the
    volumes. *)
Definition numbIndices (t : TopologySet) : nat :=
  (numbVertices t
   + list_sum (map line_interior (line_ t))
   + list_sum (map face_interior (face_ t))
   + list_sum (map volume_interior (volume_ t)))%nat.

Lemma seq_offset len start :
  seq start len = map (Nat.add start) (seq 0 len).
Proof.
  revert start. induction len as [|len IH]; intros start; simpl.
  - reflexivity.
  - f_equal; [lia|].
    rewrite <- (seq_shift len 0), map_map, (IH (S start)).
    apply map_ext. intros k. lia.
Qed.

Lemma range_app start a b :
  range start (a + b) = (range start a ++ range (start + Z.of_nat a) b)%list.
Proof.
  unfold range. rewrite seq_app, map_app. f_equal.
  rewrite (seq_offset b (0 + a)), map_map.
  apply map_ext. intros k. lia.
Qed.

Lemma range_length start count : List.length (range start count) = count.
Proof. unfold range. now rewrite length_map, length_seq. Qed.

Lemma range_In start count g :
  In g (range start count) <-> start <= g < start + Z.of_nat count.
Proof.
  unfold range. rewrite in_map_iff. split.
  - intros (k & <- & Hk). apply in_seq in Hk. lia.
  - intros H. exists (Z.to_nat (g - start)). split; [lia|].
    apply in_seq. lia.
Qed.

Lemma range_NoDup start count : NoDup (range start count).
Proof.
  unfold range. apply Injective_map_NoDup; [|apply seq_NoDup].
  intros x y H. lia.
Qed.

Lemma flat_map_map {A B C} (f : B -> list C) (g : A -> B) l :
  flat_map f (map g l) = flat_map (fun x => f (g x)) l.
Proof. induction l as [|x l IH]; simpl; congruence. Qed.

(** Ranges handed out one after the other make up one range. *)
Lemma allot_ranges counts next :
  flat_map (fun id => range (nth id (allot counts next) 0)
                            (nth id counts 0%nat))
           (seq 0 (List.length counts)) =
  range next (list_sum counts).
Proof.
  revert next. induction counts as [|c rest IH]; intros next.
  - reflexivity.
  - cbn [List.length seq flat_map list_sum].
    rewrite <- seq_shift, flat_map_map. cbn [allot nth].
    rewrite IH. change (list_sum (c :: rest)) with (c + list_sum rest)%nat.
    now rewrite range_app.
Qed.

(** The rows of a grid, one after the other, make up one range. *)
Lemma grid_range start c1 c2 :
  flat_map
    (fun v => map (fun u => start + Z.of_nat u + Z.of_nat c1 * Z.of_nat v)
                  (seq 0 c1))
    (seq 0 c2) =
  range start (c1 * c2).
Proof.
  induction c2 as [|n IH].
  - rewrite Nat.mul_0_r. reflexivity.
  - rewrite seq_S, flat_map_app, IH, Nat.mul_succ_r, range_app.
    f_equal. cbn [flat_map]. rewrite app_nil_r. unfold range.
    apply map_ext. intros u. rewrite Nat2Z.inj_mul. cbn [Nat.add]. lia.
Qed.

Lemma vertex_indices_range iStart t :
  vertex_indices (assignIndices iStart t) t = range iStart (numbVertices t).
Proof. reflexivity. Qed.

Lemma line_indices_range iStart t :
  line_indices (assignIndices iStart t) t =
  range (iStart + Z.of_nat (numbVertices t))
        (list_sum (map line_interior (line_ t))).
Proof.
  unfold line_indices. rewrite <- allot_ranges, length_map.
  apply flat_map_ext. intros id. unfold the_line.
  rewrite <- (map_nth line_interior). reflexivity.
Qed.

Lemma face_indices_range iStart t :
  face_indices (assignIndices iStart t) t =
  range (iStart + Z.of_nat (numbVertices t)
         + Z.of_nat (list_sum (map line_interior (line_ t))))
        (list_sum (map face_interior (face_ t))).
Proof.
  unfold face_indices. rewrite <- allot_ranges, length_map.
  apply flat_map_ext. intros id. unfold face_index.
  rewrite grid_range.
  change (face_interior_u (the_face t id) * face_interior_v (the_face t id))%nat
    with (face_interior (the_face t id)).
  unfold the_face. rewrite <- (map_nth face_interior). reflexivity.
Qed.

Lemma volume_indices_range iStart t :
  volume_indices (assignIndices iStart t) t =
  range (iStart + Z.of_nat (numbVertices t)
         + Z.of_nat (list_sum (map line_interior (line_ t)))
         + Z.of_nat (list_sum (map face_interior (face_ t))))
        (list_sum (map volume_interior (volume_ t))).
Proof.
  unfold volume_indices. rewrite <- allot_ranges, length_map.
  apply flat_map_ext. intros id. unfold the_volume.
  rewrite <- (map_nth volume_interior). reflexivity.
Qed.

(** C7: the indices given out over the whole model, in the order
    vertices, lines, faces, volumes, are the consecutive integers from
    the start offset on, as many as there are canonical vertices and
    interior points of non-degenerate lines, non-degenerate faces and
    volumes together: no index is given twice and none is left out. *)
Theorem assigned_contiguous iStart t :
  assigned iStart t = range iStart (numbIndices t) /\
  List.length (assigned iStart t) = numbIndices t /\
  NoDup (assigned iStart t) /\
  (forall g, In g (assigned iStart t) <->
             iStart <= g < iStart + Z.of_nat (numbIndices t)).
Proof.
  assert (E : assigned iStart t = range iStart (numbIndices t)).
  { unfold assigned, numbIndices.
    rewrite vertex_indices_range, line_indices_range, face_indices_range,
      volume_indices_range.
    rewrite !range_app, <- !app_assoc, !Nat2Z.inj_add, !Z.add_assoc.
    reflexivity. }
  rewrite E. split; [reflexivity|]. split; [apply range_length|].
  split; [apply range_NoDup|]. intros g. apply range_In.
Qed.

(** Every index a record produces on a line or face is one of those. *)
Lemma edge_point_valid t r k id u :
  edge_point t r k = Some (id, u) ->
  (id < List.length (line_ t))%nat /\ (u < line_interior (the_line t id))%nat.
Proof.
  unfold edge_point.
  destruct (Nat.ltb_spec k (line_interior (the_line t (line_id r))))
    as [H|H]; [|discriminate].
  intros E. inversion E; subst; clear E. split.
  - destruct (Nat.lt_ge_cases (line_id r) (List.length (line_ t))); auto.
    unfold the_line in H. rewrite nth_overflow in H by auto.
    unfold line_interior in H. simpl in H. lia.
  - destruct (line_reversed r); lia.
Qed.

Lemma line_index_assigned iStart t id u :
  (id < List.length (line_ t))%nat ->
  (u < line_interior (the_line t id))%nat ->
  In (line_index (assignIndices iStart t) id u) (assigned iStart t).
Proof.
  intros Hid Hu. unfold assigned. apply in_or_app. right.
  apply in_or_app. left. unfold line_indices. apply in_flat_map.
  exists id. split; [apply in_seq; lia|].
  apply in_map. apply in_seq. lia.
Qed.

Lemma face_index_assigned iStart t id u v :
  (id < List.length (face_ t))%nat ->
  (u < face_interior_u (the_face t id))%nat ->
  (v < face_interior_v (the_face t id))%nat ->
  In (face_index (assignIndices iStart t) t id u v) (assigned iStart t).
Proof.
  intros Hid Hu Hv. unfold assigned. apply in_or_app. right.
  apply in_or_app. right. apply in_or_app. left.
  unfold face_indices. apply in_flat_map.
  exists id. split; [apply in_seq; lia|].
  apply in_flat_map. exists v. split; [apply in_seq; lia|].
  apply (in_map (fun u => face_index _ t id u v)). apply in_seq. lia.
Qed.

Lemma face_point_valid t r i j id u v :
  face_point t r i j = Some (id, (u, v)) ->
  (id < List.length (face_ t))%nat /\
  (u < face_interior_u (the_face t id))%nat /\
  (v < face_interior_v (the_face t id))%nat.
Proof.
  unfold face_point, face_extent.
  set (c1 := face_interior_u (the_face t (face_id r))).
  set (c2 := face_interior_v (the_face t (face_id r))).
  intros E.
  assert (K : (u < c1 /\ v < c2)%nat /\ id = face_id r).
  { destruct (uv_flip r), (i_reverse r), (j_reverse r);
      match type of E with
      | context [(i <? ?m1)%nat] =>
          destruct (Nat.ltb_spec i m1); [|discriminate]
      end;
      match type of E with
      | context [(j <? ?m2)%nat] =>
          destruct (Nat.ltb_spec j m2); [|discriminate]
      end;
      cbn [andb] in E; inversion E; subst; lia. }
  destruct K as ((Hu & Hv) & ->). repeat split; auto.
  destruct (Nat.lt_ge_cases (face_id r) (List.length (face_ t))); auto.
  subst c1. unfold the_face in Hu. rewrite nth_overflow in Hu by auto.
  unfold face_interior_u in Hu. simpl in Hu. lia.
Qed.

(** What a record gives on a line or a face is an index phase 1 gave
    out. *)
Lemma record_numbers_assigned iStart t a P N :
  nth_error (patches t) a = Some P ->
  nth_error (records (generateGlobalNumbersFrom iStart t)) a = Some N ->
  (forall s r k id u,
     nth_error (pv_line P) s = Some r ->
     edge_point t r k = Some (id, u) ->
     exists g, edgePointNumber N s k = Some g /\ In g (assigned iStart t)) /\
  (forall f r i j id u v,
     nth_error (pv_face P) f = Some r ->
     face_point t r i j = Some (id, (u, v)) ->
     exists g, facePointNumber N f i j = Some g /\ In g (assigned iStart t)).
Proof.
  intros HP HN.
  destruct (records_match _ _ _ _ _ HP HN) as (_ & L & F). split.
  - intros s r k id u Hr Hp.
    exists (line_index (assignIndices iStart t) id u). split.
    + rewrite (L _ _ k Hr). f_equal. now apply edge_entry_point.
    + destruct (edge_point_valid _ _ _ _ _ Hp).
      now apply line_index_assigned.
  - intros f r i j id u v Hr Hp.
    exists (face_index (assignIndices iStart t) t id u v). split.
    + rewrite (F _ _ i j Hr). f_equal. now apply face_entry_point.
    + destruct (face_point_valid _ _ _ _ _ _ _ Hp) as (? & ? & ?).
      now apply face_index_assigned.
Qed.

(** *** Two patches sharing a face *)

(** Two volumes with 4 control points per direction.  The second one is
    turned against the first: its face slot 4 is face slot 1 of the
    first with the axes swapped and one direction reversed, and two of
    its edge slots walk lines of the first backwards. *)
Definition demo_A : Volume :=
  mkVolume (4, 4, 4)%nat
    [0; 1; 2; 3; 4; 5; 6; 7]%nat
    [mkLineRef 0 false;
     mkLineRef 1 false;
     mkLineRef 2 false;
     mkLineRef 3 false;
     mkLineRef 4 false;
     mkLineRef 5 false;
     mkLineRef 6 false;
     mkLineRef 7 false;
     mkLineRef 8 false;
     mkLineRef 9 false;
     mkLineRef 10 false;
     mkLineRef 11 false]
    [mkFaceRef 0 false false false;
     mkFaceRef 1 false false false;
     mkFaceRef 2 false false false;
     mkFaceRef 3 false false false;
     mkFaceRef 4 false false false;
     mkFaceRef 5 false false false].

Definition demo_B : Volume :=
  mkVolume (4, 4, 4)%nat
    [3; 7; 1; 5; 8; 9; 10; 11]%nat
    [mkLineRef 11 false;
     mkLineRef 9 false;
     mkLineRef 12 false;
     mkLineRef 13 false;
     mkLineRef 5 true;
     mkLineRef 7 true;
     mkLineRef 14 false;
     mkLineRef 15 false;
     mkLineRef 16 false;
     mkLineRef 17 false;
     mkLineRef 18 false;
     mkLineRef 19 false]
    [mkFaceRef 6 false false false;
     mkFaceRef 7 false false false;
     mkFaceRef 8 false false false;
     mkFaceRef 9 false false false;
     mkFaceRef 1 true false true;
     mkFaceRef 10 false false false].

Definition demo_gno_A : volGlobNumber :=
  mkVolGlobNumber
    [0; 1; 2; 3; 4; 5; 6; 7]
    [12; 14; 16; 18; 20; 22; 24; 26; 28; 30; 32; 34]
    [1; 1; 1; 1; 1; 1; 1; 1; 1; 1; 1; 1]
    [52; 56; 60; 64; 68; 72]
    [1; 1; 1; 1; 1; 1]
    [2; 2; 2; 2; 2; 2]
    96.

Definition demo_gno_B : volGlobNumber :=
  mkVolGlobNumber
    [3; 7; 1; 5; 8; 9; 10; 11]
    [34; 30; 36; 38; 23; 27; 40; 42; 44; 46; 48; 50]
    [1; 1; 1; 1; (-1); (-1); 1; 1; 1; 1; 1; 1]
    [76; 80; 84; 88; 57; 92]
    [1; 1; 1; 1; 2; 1]
    [2; 2; 2; 2; (-1); 2]
    104.

Definition demo : TopologySet :=
  mkTopology 12
    (repeat (mkLine 4 false) 20)
    (repeat (mkFace 4 4 false) 11)
    [demo_A; demo_B]
    [].

Example demo_numbers :
  generateGlobalNumbers demo = ([demo_gno_A; demo_gno_B], []).
Proof. reflexivity. Qed.

Example demo_count : numbIndices demo = 112%nat.
Proof. reflexivity. Qed.

Example demo_assigned : assigned 0 demo = range 0 112.
Proof. reflexivity. Qed.

(** With a start offset every entry moves by the offset. *)
Example demo_offset :
  vertex (nth 0 (fst (generateGlobalNumbersFrom 1000 demo)) demo_gno_A) =
  [1000; 1001; 1002; 1003; 1004; 1005; 1006; 1007].
Proof. reflexivity. Qed.

(** A degenerate line takes no index. *)
Example degenerate_skipped :
  assigned 0 (mkTopology 2 [mkLine 5 true; mkLine 4 false] [] [] []) =
  [0; 1; 2; 3].
Proof. reflexivity. Qed.

(** Two surface patches with 4 x 4 control points sharing an edge, which
    the second one walks backwards. *)
Definition demo_surfaces : TopologySet :=
  mkTopology 6
    (repeat (mkLine 4 false) 7)
    (repeat (mkFace 4 4 false) 2)
    []
    [mkSurface [0; 1; 2; 3]%nat
       [mkLineRef 0 false; mkLineRef 1 false;
        mkLineRef 2 false; mkLineRef 3 false] 0;
     mkSurface [3; 1; 5; 4]%nat
       [mkLineRef 3 true; mkLineRef 4 false;
        mkLineRef 5 false; mkLineRef 6 false] 1].

Example demo_surface_numbers :
  snd (generateGlobalNumbers demo_surfaces) =
  [mkSurfGlobNumber [0; 1; 2; 3] [6; 8; 10; 12] [1; 1; 1; 1] 20;
   mkSurfGlobNumber [3; 1; 5; 4] [13; 14; 16; 18] [-1; 1; 1; 1] 24].
Proof. reflexivity. Qed.

(** *** A shared line whose end points coincide *)

(** Two surface patches with 4 x 4 control points around a common apex,
    vertex 0, where an edge of each is collapsed: line 0, from the apex
    to the apex, is degenerate.  The second patch walks it against its
    stored order.  The two patches also share line 2. *)
Definition fan_A : Surface :=
  mkSurface [0; 0; 1; 2]%nat
    [mkLineRef 0 false; mkLineRef 3 false;
     mkLineRef 1 false; mkLineRef 2 false] 0.

Definition fan_B : Surface :=
  mkSurface [0; 0; 2; 3]%nat
    [mkLineRef 0 true; mkLineRef 5 false;
     mkLineRef 2 false; mkLineRef 4 false] 1.

Definition fan : TopologySet :=
  mkTopology 4
    (mkLine 4 true :: repeat (mkLine 4 false) 5)
    (repeat (mkFace 4 4 false) 2)
    []
    [fan_A; fan_B].

Definition fan_gno_A : surfGlobNumber :=
  mkSurfGlobNumber [0; 0; 1; 2] [4; 8; 4; 6] [1; 1; 1; 1] 14.

Definition fan_gno_B : surfGlobNumber :=
  mkSurfGlobNumber [0; 0; 2; 3] [3; 12; 6; 10] [-1; 1; 1; 1] 18.

Example fan_numbers :
  generateGlobalNumbers fan = ([], [fan_gno_A; fan_gno_B]).
Proof. reflexivity. Qed.


(** On the line the two patches share that is not degenerate, line 2,
    they agree. *)
Example fan_shared_line :
  edgePointNumber (SurfNumber fan_gno_A) 3 0 = Some 6 /\
  edgePointNumber (SurfNumber fan_gno_B) 2 0 = Some 6 /\
  edgePointNumber (SurfNumber fan_gno_A) 3 1 = Some 7 /\
  edgePointNumber (SurfNumber fan_gno_B) 2 1 = Some 7.
Proof. repeat split. Qed.


End Numbering.
